(** * Verification of dynarmic's decoder helpers

    Shallow embedding of [src/dynarmic/frontend/decoder/decoder_detail.h]
    (namespace [Dynarmic::Decoder::detail], template [detail<MatcherT>]):

    - [GetMaskAndExpect]  builds the (mask, expect) pair of a bitstring,
    - [GetArgInfo<N>]     builds the per-argument (mask, shift) tables,
    - [VisitorCaller::Make] / [GetMatcher] build the dispatch callable.

    An [opcode_type] value is a [Z] in [0, 2^opcode_bitsize); conversions back
    to [opcode_type] are written out as [wrap].  A [size_t] is a [nat]: every
    [size_t] of the file is a loop counter, a bit position or an argument index
    bounded by [opcode_bitsize], so its 64-bit wrap-around is never reached.
    A [std::array<char, n>] is a [list ascii] of length [n]. *)

From Stdlib Require Import ZArith Ascii String List Bool Lia.
From stdpp Require Import base list.

Local Open Scope nat_scope.

(** ** Control flow: bounded [for] loops, exceptions and assertions *)

(** What a call can end in: a returned value, a thrown [std::out_of_range]
    (with its message) or a failed [ASSERT]. *)
Inductive outcome (A : Type) : Type :=
| Ok (a : A)
| OutOfRange (msg : string)
| AssertionFailure.
Arguments Ok {A} a.
Arguments OutOfRange {A} msg.
Arguments AssertionFailure {A}.

Definition bind {A B : Type} (r : outcome A) (k : A -> outcome B) : outcome B :=
  match r with
  | Ok a => k a
  | OutOfRange msg => OutOfRange msg
  | AssertionFailure => AssertionFailure
  end.

(** [for (size_t i = 0; i < n; i++) s = body(i, s);] *)
Definition for_upto {S : Type} (n : nat) (body : nat -> S -> S) (s : S) : S :=
  fold_left (fun s i => body i s) (seq 0 n) s.

(** The same loop with a body that may throw: the first exception leaves the
    loop and the function. *)
Definition for_upto_try {S : Type} (n : nat) (body : nat -> S -> outcome S) (s : S)
  : outcome S :=
  fold_left (fun r i => bind r (body i)) (seq 0 n) (Ok s).

(** Modelled from the spec: the [ASSERT] macro of [dynarmic/common/assert.h],
    which is not part of the sources at hand.  The spec calls its failure
    "assertion failure, fatal"; a true condition lets execution go on. *)
Definition ASSERT {A : Type} (cond : bool) (k : outcome A) : outcome A :=
  if cond then k else AssertionFailure.

(** ** Characters of a bitstring *)

Definition NUL : ascii := Ascii.zero.

(** [bitstring[i]] *)
Definition char_at (bitstring : list ascii) (i : nat) : ascii :=
  default NUL (bitstring !! i).

(** [c == '0' || c == '1' || c == '-'] (line 80) *)
Definition is_fixed_or_dontcare (c : ascii) : bool :=
  (c =? "0")%char || (c =? "1")%char || (c =? "-")%char.

(** ** String literals *)

(** [StringToArray<N>] (lines 20-27): [str] is a [const char[N + 1]], the
    literal with its terminator; [result] starts zero-initialised. *)
Definition StringToArray (N : nat) (str : list ascii) : list ascii :=
  for_upto N (fun i result => <[i := char_at str i]> result) (replicate N NUL).

(** ** Sample patterns *)

(** The 8-bit pattern of the specification's scenario. *)
Definition pattern_10aabbb : list ascii := list_ascii_of_string "10aabbb-".

(** An 8-bit pattern with a single field. *)
Definition pattern_10aa : list ascii := list_ascii_of_string "10aa----".

(** 8-bit patterns that hold a NUL character in front of a marker. *)
Definition pattern_nul_a : list ascii := NUL :: list_ascii_of_string "a000000".

Definition pattern_nul_0_a : list ascii := NUL :: list_ascii_of_string "0a00000".

(** ** The decoder helpers, for one opcode width *)

Section Detail.

(** [Common::BitSize<opcode_type>()] *)
Variable opcode_bitsize : nat.

(** Conversion of an integer to [opcode_type]. *)
Definition wrap (z : Z) : Z := (z mod 2 ^ Z.of_nat opcode_bitsize)%Z.

(** [static_cast<opcode_type>(1)] *)
Definition one : Z := wrap 1.

(** [opcode_bitsize - i - 1] *)
Definition bit_position (i : nat) : nat := opcode_bitsize - i - 1.

(** Body of the loop of [GetMaskAndExpect] (lines 50-62). *)
Definition mask_expect_body (bitstring : list ascii) (i : nat) (st : Z * Z) : Z * Z :=
  let '(mask, expect) := st in
  let bit_position := bit_position i in
  if (char_at bitstring i =? "0")%char then
    (wrap (Z.lor mask (Z.shiftl one (Z.of_nat bit_position))), expect)
  else if (char_at bitstring i =? "1")%char then
    let expect := wrap (Z.lor expect (Z.shiftl one (Z.of_nat bit_position))) in
    let mask := wrap (Z.lor mask (Z.shiftl one (Z.of_nat bit_position))) in
    (mask, expect)
  else
    (mask, expect).

(** [GetMaskAndExpect] (lines 46-65). *)
Definition GetMaskAndExpect (bitstring : list ascii) : Z * Z :=
  for_upto opcode_bitsize (mask_expect_body bitstring) (0%Z, 0%Z).

(** State of the scan of [GetArgInfo]: the two tables and the cursor. *)
Record arg_state : Type := ArgState {
  masks : list Z;
  shifts : list nat;
  arg_index : nat;
  ch : ascii
}.

(** [masks[i]]; the source reads it only for an index checked against [N]. *)
Definition mask_at (ms : list Z) (i : nat) : Z := default 0%Z (ms !! i).

(** Body of the loop of [GetArgInfo<N>] (lines 80-104). *)
Definition arg_info_body (N : nat) (bitstring : list ascii) (i : nat) (st : arg_state)
  : outcome arg_state :=
  let c := char_at bitstring i in
  if is_fixed_or_dontcare c then
    if negb (ch st =? NUL)%char then
      Ok (ArgState (masks st) (shifts st) (arg_index st + 1) NUL)
    else
      Ok st
  else
    let st :=
      if (ch st =? NUL)%char then
        ArgState (masks st) (shifts st) (arg_index st) c
      else if negb (ch st =? c)%char then
        ArgState (masks st) (shifts st) (arg_index st + 1) c
      else st in
    if 0 <? N then
      let bit_position := bit_position i in
      if N <=? arg_index st then OutOfRange "Unexpected field"
      else
        let m := wrap (Z.lor (mask_at (masks st) (arg_index st))
                             (Z.shiftl one (Z.of_nat bit_position))) in
        Ok (ArgState (<[arg_index st := m]> (masks st))
                     (<[arg_index st := bit_position]> (shifts st))
                     (arg_index st) (ch st))
    else OutOfRange "Unexpected field".

(** The scan of [GetArgInfo<N>] over the first [k] characters. *)
Definition arg_info_scan (N : nat) (bitstring : list ascii) (k : nat) : outcome arg_state :=
  for_upto_try k (arg_info_body N bitstring)
    (ArgState (replicate N 0%Z) (replicate N 0) 0 NUL).

(** [std::all_of(masks.begin(), masks.end(), [](auto m) { return m != 0; })] *)
Definition all_nonzero (ms : list Z) : bool := forallb (fun m => negb (m =? 0)%Z) ms.

(** [GetArgInfo<N>] (lines 73-113).  [ignore_asserts] tells whether
    [DYNARMIC_IGNORE_ASSERTS] is defined. *)
Definition GetArgInfo (ignore_asserts : bool) (N : nat) (bitstring : list ascii)
  : outcome (list Z * list nat) :=
  bind (arg_info_scan N bitstring opcode_bitsize) (fun st =>
    if ignore_asserts then Ok (masks st, shifts st)
    else ASSERT (all_nonzero (masks st)) (Ok (masks st, shifts st))).

(** The value of [arg_index] once the iteration for position [i] is over, that
    is the index under which a marker at position [i] was recorded; [None]
    when the scan threw before. *)
Definition assigned_index (N : nat) (bitstring : list ascii) (i : nat) : option nat :=
  match arg_info_scan N bitstring (i + 1) with
  | Ok st => Some (arg_index st)
  | _ => None
  end.

(** [(instruction & mask) >> shift], the extraction of lines 139 and 156. *)
Definition decode_field (mask : Z) (shift : nat) (instruction : Z) : Z :=
  Z.shiftr (Z.land instruction mask) (Z.of_nat shift).

(** *** Handler signatures and the dispatch callable *)

(** The parameter types a handler may declare: booleans, unsigned and signed
    integers of a given width, and enumerations backed by an unsigned integer
    of a given width. *)
Inductive arg_type : Type :=
| BoolT
| UnsignedT (bits : nat)
| SignedT (bits : nat)
| EnumT (bits : nat).

Definition arg_value (T : arg_type) : Type :=
  match T with
  | BoolT => bool
  | UnsignedT _ | SignedT _ | EnumT _ => Z
  end.

(** [static_cast<T>(z)] of a non-negative integer [z]. *)
Definition static_cast (T : arg_type) (z : Z) : arg_value T :=
  match T with
  | BoolT => negb (z =? 0)%Z
  | UnsignedT bits => (z mod 2 ^ Z.of_nat bits)%Z
  | SignedT bits =>
      ((z + 2 ^ (Z.of_nat bits - 1)) mod 2 ^ Z.of_nat bits - 2 ^ (Z.of_nat bits - 1))%Z
  | EnumT bits => (z mod 2 ^ Z.of_nat bits)%Z
  end.

(** The values of a parameter pack [Args...]. *)
Fixpoint args_tuple (Args : list arg_type) : Type :=
  match Args with
  | [] => unit
  | T :: Ts => (arg_value T * args_tuple Ts)%type
  end.

(** [arg_shifts[i]] *)
Definition shift_at (ss : list nat) (i : nat) : nat := default 0 (ss !! i).

(** The pack expansion
    [static_cast<Args>((instruction & arg_masks[iota]) >> arg_shifts[iota])...]
    of lines 139 and 156: [Args] and [iota] are expanded in lockstep (C++
    rejects packs of different lengths; [hd 0] stands for that impossible
    case). *)
Fixpoint expand_args (Args : list arg_type) (iota : list nat)
    (arg_masks : list Z) (arg_shifts : list nat) (instruction : Z) : args_tuple Args :=
  match Args with
  | [] => tt
  | T :: Ts =>
      (static_cast T (decode_field (mask_at arg_masks (hd 0 iota))
                                   (shift_at arg_shifts (hd 0 iota)) instruction),
       expand_args Ts (tl iota) arg_masks arg_shifts instruction)
  end.

Section Visitor.

Variables Visitor CallRetT : Type.

(** A pointer to a non-const member function of [Visitor] with parameters
    [Args...] and result [CallRetT]: it may change the visitor it is called
    on. *)
Definition handler (Args : list arg_type) : Type :=
  Visitor -> args_tuple Args -> Visitor * CallRetT.

(** A pointer to a const member function of [Visitor]. *)
Definition const_handler (Args : list arg_type) : Type :=
  Visitor -> args_tuple Args -> CallRetT.

(** [VisitorCaller::Make] for a non-const member function (lines 129-141). *)
Definition Make (Args : list arg_type) (iota : list nat) (fn : handler Args)
    (arg_masks : list Z) (arg_shifts : list nat) : Visitor -> Z -> Visitor * CallRetT :=
  fun v instruction => fn v (expand_args Args iota arg_masks arg_shifts instruction).

(** [VisitorCaller::Make] for a const member function (lines 146-158). *)
Definition Make_const (Args : list arg_type) (iota : list nat) (fn : const_handler Args)
    (arg_masks : list Z) (arg_shifts : list nat) : Visitor -> Z -> CallRetT :=
  fun v instruction => fn v (expand_args Args iota arg_masks arg_shifts instruction).

(** The [MatcherT] built by [GetMatcher]: a name, the mask and expect words
    and the dispatch callable. *)
Record Matcher (F : Type) : Type := MatcherT {
  matcher_name : string;
  matcher_mask : Z;
  matcher_expect : Z;
  matcher_fn : F
}.

(** [GetMatcher] (lines 168-177); [Iota] is [std::make_index_sequence<args_count>]
    with [args_count = mp::parameter_count_v<FnT>], the length of [Args]. *)
Definition GetMatcher (Args : list arg_type) (fn : handler Args) (name : string)
    (mask_and_expect : Z * Z) (masks_and_shifts : list Z * list nat)
  : Matcher (Visitor -> Z -> Visitor * CallRetT) :=
  let Iota := seq 0 (length Args) in
  let '(mask, expect) := mask_and_expect in
  let '(arg_masks, arg_shifts) := masks_and_shifts in
  let proxy_fn := Make Args Iota fn arg_masks arg_shifts in
  MatcherT _ name mask expect proxy_fn.

Definition GetMatcher_const (Args : list arg_type) (fn : const_handler Args) (name : string)
    (mask_and_expect : Z * Z) (masks_and_shifts : list Z * list nat)
  : Matcher (Visitor -> Z -> CallRetT) :=
  let Iota := seq 0 (length Args) in
  let '(mask, expect) := mask_and_expect in
  let '(arg_masks, arg_shifts) := masks_and_shifts in
  let proxy_fn := Make_const Args Iota fn arg_masks arg_shifts in
  MatcherT _ name mask expect proxy_fn.

End Visitor.

(** ** Vocabulary of the specification

    What the specification calls fixed bits, fields, field indices, field
    masks and field shifts, written from its words and independently of the
    scan of [GetArgInfo]. *)

(** A field-marker character: anything but ['0'], ['1'] and ['-']. *)
Definition is_marker (c : ascii) : bool := negb (is_fixed_or_dontcare c).

(** The single-bit mask of pattern position [i]. *)
Definition bit_mask (i : nat) : Z := Z.shiftl 1 (Z.of_nat (bit_position i)).

(** OR of the single-bit masks of a list of positions. *)
Definition or_bits (positions : list nat) : Z :=
  fold_right (fun i m => Z.lor (bit_mask i) m) 0%Z positions.

(** The positions below [k] that satisfy [p], left to right. *)
Definition positions_upto (p : nat -> bool) (k : nat) : list nat :=
  List.filter p (seq 0 k).

(** Position [i] opens a field: a marker that does not continue a run of the
    same character. *)
Definition field_start (bitstring : list ascii) (i : nat) : bool :=
  is_marker (char_at bitstring i)
  && ((i =? 0) || negb (char_at bitstring (i - 1) =? char_at bitstring i)%char).

(** Number of fields opened among the first [k] characters. *)
Definition fields_upto (bitstring : list ascii) (k : nat) : nat :=
  length (positions_upto (field_start bitstring) k).

(** Number of distinct fields of a pattern: its maximal runs of one repeated
    marker character. *)
Definition field_count (bitstring : list ascii) : nat :=
  fields_upto bitstring (length bitstring).

(** Index of the field that marker position [i] belongs to, in order of first
    appearance. *)
Definition field_of (bitstring : list ascii) (i : nat) : nat :=
  fields_upto bitstring (i + 1) - 1.

Definition in_field (bitstring : list ascii) (k i : nat) : bool :=
  is_marker (char_at bitstring i) && (field_of bitstring i =? k).

(** The positions of field [k]. *)
Definition field_positions (bitstring : list ascii) (k : nat) : list nat :=
  positions_upto (in_field bitstring k) (length bitstring).

(** Bit position of the last of a list of positions ([0] for none, as the
    zero-initialised [shifts] table has it). *)
Definition shift_of (positions : list nat) : nat :=
  match last positions with
  | Some i => bit_position i
  | None => 0
  end.

(** Width of field [k]: the number of its positions. *)
Definition field_width (bitstring : list ascii) (k : nat) : nat :=
  length (field_positions bitstring k).

Definition field_mask (bitstring : list ascii) (k : nat) : Z :=
  or_bits (field_positions bitstring k).

Definition field_shift (bitstring : list ascii) (k : nat) : nat :=
  shift_of (field_positions bitstring k).

(** The arguments a handler with parameter types [Args] is to receive from a
    field table: the [j]-th one is [cast<Tj>((x & maskj) >> shiftj)]. *)
Fixpoint extract_fields (Args : list arg_type) (table : list (Z * nat)) (x : Z)
  : args_tuple Args :=
  match Args with
  | [] => tt
  | T :: Ts =>
      (static_cast T (Z.shiftr (Z.land x (fst (hd (0%Z, 0) table)))
                               (Z.of_nat (snd (hd (0%Z, 0) table)))),
       extract_fields Ts (tl table) x)
  end.

(** The mask of a run of [width] bits whose lowest bit is bit [shift]:
    [(2^width - 1) << shift]. *)
Definition run_mask (width shift : nat) : Z :=
  Z.shiftl (Z.ones (Z.of_nat width)) (Z.of_nat shift).

(** Placing the value [v] into the field [(mask, shift)] of the word [x0]. *)
Definition encode_field (mask : Z) (shift : nat) (v x0 : Z) : Z :=
  Z.lor (Z.ldiff x0 mask) (wrap (Z.shiftl v (Z.of_nat shift))).

(** A pattern read as a binary integer, most significant digit first. *)
Definition binary_digit (c : ascii) : Z := if (c =? "1")%char then 1%Z else 0%Z.

Definition read_binary (bitstring : list ascii) : Z :=
  fold_left (fun acc c => (2 * acc + binary_digit c)%Z) bitstring 0%Z.

Definition is_binary (c : ascii) : bool := (c =? "0")%char || (c =? "1")%char.

(** The pattern holds a NUL character, the value [GetArgInfo] gives [ch] when
    no field is open. *)
Definition has_nul (bitstring : list ascii) : bool :=
  existsb (fun c => (c =? NUL)%char) bitstring.

Definition no_nul (bitstring : list ascii) : Prop :=
  forall i, i < length bitstring -> char_at bitstring i <> NUL.

(** ** The matcher of a bitstring

    [DYNARMIC_DECODER_GET_MATCHER(MatcherT, fn, name, bitstring)] (line 180):
    [GetMatcher] applied to the handler, the name, [GetMaskAndExpect(bitstring)]
    and [GetArgInfo<N>(bitstring)], where [N] is the handler's parameter count.
    An exception or failed assertion of [GetArgInfo] leaves no matcher. *)
Definition DYNARMIC_DECODER_GET_MATCHER (ignore_asserts : bool)
    (Visitor CallRetT : Type) (Args : list arg_type)
    (fn : handler Visitor CallRetT Args) (name : string) (bitstring : list ascii)
  : outcome (Matcher (Visitor -> Z -> Visitor * CallRetT)) :=
  bind (GetArgInfo ignore_asserts (length Args) bitstring) (fun masks_and_shifts =>
    Ok (GetMatcher Visitor CallRetT Args fn name
          (GetMaskAndExpect bitstring) masks_and_shifts)).

(** The word that holds [acc] and, for each [k], the value [vs[k]] shifted
    left by [shifts[k]]. *)
Definition place_fields (shifts : list nat) (vs : list Z) (acc : Z) : Z :=
  fold_left (fun a sv => Z.lor a (Z.shiftl (snd sv) (Z.of_nat (fst sv))))
            (combine shifts vs) acc.

(** The values [vs] converted to the parameter types [Args]. *)
Fixpoint cast_all (Args : list arg_type) (vs : list Z) : args_tuple Args :=
  match Args with
  | [] => tt
  | T :: Ts => (static_cast T (hd 0%Z vs), cast_all Ts (tl vs))
  end.

(** ** The cursor of [GetArgInfo] on its own

    The part of the loop body that moves [arg_index] and [ch] does not read the
    tables; it is written out once more here, to name the index under which
    each position is recorded and to state the loop invariant.
    [arg_info_body_eq] relates it to the loop body. *)

(** The cursor update of lines 80-91 on its own: [arg_index] and [ch] after
    the character [c]. *)
Definition advance (c : ascii) (cur : nat * ascii) : nat * ascii :=
  let '(arg_index, ch) := cur in
  if is_fixed_or_dontcare c then
    if negb (ch =? NUL)%char then (arg_index + 1, NUL) else (arg_index, ch)
  else if (ch =? NUL)%char then (arg_index, c)
  else if negb (ch =? c)%char then (arg_index + 1, c)
  else (arg_index, ch).

Definition cursor_after (bitstring : list ascii) (k : nat) : nat * ascii :=
  for_upto k (fun i => advance (char_at bitstring i)) (0, NUL).

(** A marker position [i] is recorded under index [j] by the cursor. *)
Definition recorded_at (bitstring : list ascii) (j i : nat) : bool :=
  is_marker (char_at bitstring i) && (fst (cursor_after bitstring (i + 1)) =? j).

(** OR of the bits, and bit position of the last, of the positions below [k]
    recorded under index [j]. *)
Definition recorded_mask (bitstring : list ascii) (k j : nat) : Z :=
  or_bits (positions_upto (recorded_at bitstring j) k).

Definition recorded_shift (bitstring : list ascii) (k j : nat) : nat :=
  shift_of (positions_upto (recorded_at bitstring j) k).

(** ** Loops *)

Lemma for_upto_S {S : Type} (n : nat) (body : nat -> S -> S) (s : S) :
  for_upto (n + 1) body s = body n (for_upto n body s).
Proof.
  unfold for_upto. rewrite Nat.add_1_r, seq_S, fold_left_app. reflexivity.
Qed.

Lemma for_upto_try_S {S : Type} (n : nat) (body : nat -> S -> outcome S) (s : S) :
  for_upto_try (n + 1) body s = bind (for_upto_try n body s) (body n).
Proof.
  unfold for_upto_try. rewrite Nat.add_1_r, seq_S, fold_left_app. reflexivity.
Qed.

Lemma positions_upto_S (p : nat -> bool) (k : nat) :
  positions_upto p (k + 1) = positions_upto p k ++ (if p k then [k] else []).
Proof.
  unfold positions_upto. rewrite Nat.add_1_r, seq_S, List.filter_app. simpl.
  destruct (p k); reflexivity.
Qed.

Lemma positions_upto_lt (p : nat -> bool) (k i : nat) :
  In i (positions_upto p k) <-> i < k /\ p i = true.
Proof.
  unfold positions_upto. rewrite filter_In, in_seq. intuition lia.
Qed.

(** ** Words and single-bit masks *)

Lemma pow2_pos (n : nat) : (0 < 2 ^ Z.of_nat n)%Z.
Proof. apply Z.pow_pos_nonneg; lia. Qed.

Lemma wrap_small (z : Z) : (0 <= z < 2 ^ Z.of_nat opcode_bitsize)%Z -> wrap z = z.
Proof. intros H. unfold wrap. apply Z.mod_small, H. Qed.

Lemma wrap_range (z : Z) : (0 <= wrap z < 2 ^ Z.of_nat opcode_bitsize)%Z.
Proof. unfold wrap. apply Z.mod_pos_bound, pow2_pos. Qed.

Lemma one_is_1 : 0 < opcode_bitsize -> one = 1%Z.
Proof.
  intros H. unfold one. apply wrap_small. split; [lia|].
  apply (Z.pow_gt_1 2); lia.
Qed.

Lemma shiftl_one (i : nat) :
  i < opcode_bitsize -> Z.shiftl one (Z.of_nat (bit_position i)) = bit_mask i.
Proof. intros H. unfold bit_mask. rewrite one_is_1 by lia. reflexivity. Qed.

Lemma bit_position_lt (i : nat) : 0 < opcode_bitsize -> bit_position i < opcode_bitsize.
Proof. unfold bit_position. lia. Qed.

Lemma bit_position_inj (i j : nat) :
  i < opcode_bitsize -> j < opcode_bitsize -> bit_position i = bit_position j -> i = j.
Proof. unfold bit_position. lia. Qed.

Lemma bit_mask_pow2 (i : nat) : bit_mask i = (2 ^ Z.of_nat (bit_position i))%Z.
Proof. unfold bit_mask. rewrite Z.shiftl_1_l. reflexivity. Qed.

Lemma testbit_bit_mask (i : nat) (b : Z) :
  Z.testbit (bit_mask i) b = (Z.of_nat (bit_position i) =? b)%Z.
Proof. rewrite bit_mask_pow2. apply Z.pow2_bits_eqb. lia. Qed.

(** Bits at and above [n] of a word below [2^n] are clear. *)
Lemma testbit_high (z : Z) (n : nat) (b : Z) :
  (0 <= z < 2 ^ Z.of_nat n)%Z -> (Z.of_nat n <= b)%Z -> Z.testbit z b = false.
Proof.
  intros Hz Hb. rewrite <- (Z.mod_small z (2 ^ Z.of_nat n)) by exact Hz.
  apply Z.mod_pow2_bits_high. lia.
Qed.

Lemma lor_range (a b : Z) (n : nat) :
  (0 <= a < 2 ^ Z.of_nat n)%Z -> (0 <= b < 2 ^ Z.of_nat n)%Z ->
  (0 <= Z.lor a b < 2 ^ Z.of_nat n)%Z.
Proof.
  intros Ha Hb.
  assert (E : (Z.lor a b mod 2 ^ Z.of_nat n = Z.lor a b)%Z).
  { apply Z.bits_inj'. intros m Hm.
    destruct (Z_lt_le_dec m (Z.of_nat n)) as [Hlt|Hge].
    - apply Z.mod_pow2_bits_low. lia.
    - rewrite Z.mod_pow2_bits_high by lia.
      rewrite Z.lor_spec, (testbit_high a n), (testbit_high b n); auto. }
  rewrite <- E. apply Z.mod_pos_bound, pow2_pos.
Qed.

Lemma bit_mask_range (i : nat) :
  0 < opcode_bitsize -> (0 <= bit_mask i < 2 ^ Z.of_nat opcode_bitsize)%Z.
Proof.
  intros H. rewrite bit_mask_pow2. split; [apply Z.lt_le_incl, pow2_pos|].
  apply Z.pow_lt_mono_r; [lia|lia|]. pose proof (bit_position_lt i H). lia.
Qed.

Lemma or_bits_range (l : list nat) :
  0 < opcode_bitsize -> (0 <= or_bits l < 2 ^ Z.of_nat opcode_bitsize)%Z.
Proof.
  intros H. induction l as [|i l IH]; simpl.
  - split; [lia|apply pow2_pos].
  - apply lor_range; [apply bit_mask_range, H|exact IH].
Qed.

Lemma or_bits_snoc (l : list nat) (i : nat) :
  or_bits (l ++ [i]) = Z.lor (or_bits l) (bit_mask i).
Proof.
  induction l as [|j l IH]; simpl.
  - rewrite Z.lor_0_r, Z.lor_0_l. reflexivity.
  - rewrite IH, Z.lor_assoc. reflexivity.
Qed.

Lemma testbit_or_bits (l : list nat) (b : Z) :
  Z.testbit (or_bits l) b = existsb (fun i => (Z.of_nat (bit_position i) =? b)%Z) l.
Proof.
  induction l as [|i l IH]; simpl.
  - apply Z.bits_0.
  - rewrite Z.lor_spec, testbit_bit_mask, IH. reflexivity.
Qed.

(** The bit of position [i] is set in the OR over the positions below [k]
    that satisfy [p] exactly when [i] is one of them. *)
Lemma testbit_or_positions (p : nat -> bool) (k i : nat) :
  k <= opcode_bitsize -> i < opcode_bitsize ->
  Z.testbit (or_bits (positions_upto p k)) (Z.of_nat (bit_position i)) = (i <? k) && p i.
Proof.
  intros Hk Hi. rewrite testbit_or_bits.
  destruct ((i <? k) && p i) eqn:E.
  - apply andb_true_iff in E as [E1 E2]. apply Nat.ltb_lt in E1.
    apply existsb_exists. exists i. split; [|apply Z.eqb_refl].
    apply positions_upto_lt. auto.
  - apply not_true_is_false. intros Hex. apply existsb_exists in Hex as (j & Hj & Hb).
    apply positions_upto_lt in Hj as [Hj1 Hj2]. apply Z.eqb_eq in Hb.
    assert (j = i) as -> by (apply bit_position_inj; lia).
    apply andb_false_iff in E as [E|E]; [apply Nat.ltb_ge in E; lia|congruence].
Qed.

(** Two words are equal when they agree on the bit of every position. *)
Lemma word_eq_by_positions' (a b : Z) :
  (forall n, (Z.of_nat opcode_bitsize <= n)%Z -> Z.testbit a n = false) ->
  (forall n, (Z.of_nat opcode_bitsize <= n)%Z -> Z.testbit b n = false) ->
  (forall i, i < opcode_bitsize ->
     Z.testbit a (Z.of_nat (bit_position i)) = Z.testbit b (Z.of_nat (bit_position i))) ->
  a = b.
Proof.
  intros Ha Hb H. apply Z.bits_inj'. intros n Hn.
  destruct (Z_lt_le_dec n (Z.of_nat opcode_bitsize)) as [Hlt|Hge].
  - specialize (H (opcode_bitsize - 1 - Z.to_nat n)).
    replace (Z.of_nat (bit_position (opcode_bitsize - 1 - Z.to_nat n))) with n in H
      by (unfold bit_position; lia).
    apply H. lia.
  - rewrite Ha, Hb; auto.
Qed.

Lemma word_eq_by_positions (a b : Z) :
  (0 <= a < 2 ^ Z.of_nat opcode_bitsize)%Z -> (0 <= b < 2 ^ Z.of_nat opcode_bitsize)%Z ->
  (forall i, i < opcode_bitsize ->
     Z.testbit a (Z.of_nat (bit_position i)) = Z.testbit b (Z.of_nat (bit_position i))) ->
  a = b.
Proof.
  intros Ha Hb. apply word_eq_by_positions'; intros n Hn.
  - apply (testbit_high a opcode_bitsize); auto.
  - apply (testbit_high b opcode_bitsize); auto.
Qed.

(** ** [GetMaskAndExpect] *)

(** Loop invariant: after [k] characters, [mask] holds the bits of the
    ['0'] and ['1'] positions seen and [expect] those of the ['1'] positions. *)
Lemma mask_expect_upto (bitstring : list ascii) (k : nat) :
  k <= opcode_bitsize ->
  for_upto k (mask_expect_body bitstring) (0%Z, 0%Z)
  = (or_bits (positions_upto (fun i => is_binary (char_at bitstring i)) k),
     or_bits (positions_upto (fun i => (char_at bitstring i =? "1")%char) k)).
Proof.
  induction k as [|k IH]; intros Hk; [reflexivity|].
  replace (S k) with (k + 1) by lia.
  rewrite for_upto_S, IH by lia. rewrite !positions_upto_S.
  unfold mask_expect_body, is_binary.
  assert (Hw : forall l, wrap (Z.lor (or_bits l) (Z.shiftl one (Z.of_nat (bit_position k))))
                         = or_bits (l ++ [k])).
  { intros l. rewrite shiftl_one, or_bits_snoc by lia.
    apply wrap_small, lor_range; [apply or_bits_range|apply bit_mask_range]; lia. }
  destruct (char_at bitstring k =? "0")%char eqn:E0.
  - apply Ascii.eqb_eq in E0. rewrite E0. simpl. rewrite Hw, app_nil_r. reflexivity.
  - destruct (char_at bitstring k =? "1")%char eqn:E1; simpl.
    + rewrite !Hw. reflexivity.
    + rewrite !app_nil_r. reflexivity.
Qed.

Lemma GetMaskAndExpect_eq (bitstring : list ascii) :
  GetMaskAndExpect bitstring
  = (or_bits (positions_upto (fun i => is_binary (char_at bitstring i)) opcode_bitsize),
     or_bits (positions_upto (fun i => (char_at bitstring i =? "1")%char) opcode_bitsize)).
Proof. apply mask_expect_upto. lia. Qed.

Lemma GetMaskAndExpect_range (bitstring : list ascii) (mask expect : Z) :
  GetMaskAndExpect bitstring = (mask, expect) ->
  (0 <= mask < 2 ^ Z.of_nat opcode_bitsize)%Z /\ (0 <= expect < 2 ^ Z.of_nat opcode_bitsize)%Z.
Proof.
  rewrite GetMaskAndExpect_eq. intros [= <- <-].
  destruct opcode_bitsize as [|w] eqn:E; [simpl; lia|].
  rewrite <- E. split; apply or_bits_range; lia.
Qed.

Lemma GetMaskAndExpect_testbit (bitstring : list ascii) (mask expect : Z) (i : nat) :
  GetMaskAndExpect bitstring = (mask, expect) -> i < opcode_bitsize ->
  Z.testbit mask (Z.of_nat (bit_position i)) = is_binary (char_at bitstring i)
  /\ Z.testbit expect (Z.of_nat (bit_position i)) = (char_at bitstring i =? "1")%char.
Proof.
  rewrite GetMaskAndExpect_eq. intros [= <- <-] Hi.
  rewrite !testbit_or_positions by lia.
  apply Nat.ltb_lt in Hi. rewrite Hi. auto.
Qed.

(** ** Reading a pattern as a binary integer *)

Lemma read_binary_snoc (l : list ascii) (c : ascii) :
  read_binary (l ++ [c]) = (2 * read_binary l + binary_digit c)%Z.
Proof. unfold read_binary. rewrite fold_left_app. reflexivity. Qed.

Lemma char_at_app_l (l1 l2 : list ascii) (i : nat) :
  i < length l1 -> char_at (l1 ++ l2) i = char_at l1 i.
Proof. intros H. unfold char_at. rewrite lookup_app_l by exact H. reflexivity. Qed.

Lemma char_at_app_r (l1 l2 : list ascii) (i : nat) :
  length l1 <= i -> char_at (l1 ++ l2) i = char_at l2 (i - length l1).
Proof. intros H. unfold char_at. rewrite lookup_app_r by exact H. reflexivity. Qed.

Lemma read_binary_range (l : list ascii) :
  (0 <= read_binary l < 2 ^ Z.of_nat (length l))%Z.
Proof.
  induction l as [|c l IH] using rev_ind; [simpl; unfold read_binary; simpl; lia|].
  rewrite read_binary_snoc, length_app, Nat.add_1_r, Nat2Z.inj_succ, Z.pow_succ_r by lia.
  unfold binary_digit. destruct (c =? "1")%char; lia.
Qed.

Lemma read_binary_testbit (l : list ascii) (i : nat) :
  i < length l ->
  Z.testbit (read_binary l) (Z.of_nat (length l - i - 1)) = (char_at l i =? "1")%char.
Proof.
  revert i. induction l as [|c l IH] using rev_ind; intros i Hi; [simpl in Hi; lia|].
  rewrite length_app in *. simpl in Hi. rewrite read_binary_snoc.
  change (binary_digit c) with (Z.b2z (c =? "1")%char).
  destruct (Nat.eq_dec i (length l)) as [->|Hne].
  - replace (length l + length [c] - length l - 1) with 0 by (simpl; lia).
    rewrite char_at_app_r, Nat.sub_diag by lia. apply Z.testbit_0_r.
  - replace (Z.of_nat (length l + length [c] - i - 1))
      with (Z.succ (Z.of_nat (length l - i - 1))) by (simpl; lia).
    rewrite Z.testbit_succ_r by lia. rewrite char_at_app_l by lia. apply IH. lia.
Qed.

(** C1: bit [W-1-i] of [mask] is set iff character [i] is ['0'] or ['1'], bit
    [W-1-i] of [expect] is set iff character [i] is ['1'] (so every other
    character, ['-'] and field markers included, leaves both bits 0), both
    words fit in [W] bits, and for a pattern of ['0']/['1'] only
    [mask = 2^W - 1] and [expect] is the pattern read as a binary integer. *)
Theorem GetMaskAndExpect_spec (bitstring : list ascii) (mask expect : Z) :
  length bitstring = opcode_bitsize ->
  GetMaskAndExpect bitstring = (mask, expect) ->
  (0 <= mask < 2 ^ Z.of_nat opcode_bitsize)%Z
  /\ (0 <= expect < 2 ^ Z.of_nat opcode_bitsize)%Z
  /\ (forall i, i < opcode_bitsize ->
        Z.testbit mask (Z.of_nat (opcode_bitsize - 1 - i))
          = ((char_at bitstring i =? "0") || (char_at bitstring i =? "1"))%char
        /\ Z.testbit expect (Z.of_nat (opcode_bitsize - 1 - i))
          = (char_at bitstring i =? "1")%char)
  /\ ((forall i, i < opcode_bitsize ->
         char_at bitstring i = "0"%char \/ char_at bitstring i = "1"%char) ->
      mask = (2 ^ Z.of_nat opcode_bitsize - 1)%Z /\ expect = read_binary bitstring).
Proof.
  intros Hlen HG. destruct (GetMaskAndExpect_range _ _ _ HG) as [Hm He].
  assert (Hbits : forall i, i < opcode_bitsize ->
            Z.testbit mask (Z.of_nat (bit_position i)) = is_binary (char_at bitstring i)
            /\ Z.testbit expect (Z.of_nat (bit_position i)) = (char_at bitstring i =? "1")%char)
    by (intros i Hi; apply GetMaskAndExpect_testbit; assumption).
  split; [exact Hm|]. split; [exact He|]. split.
  - intros i Hi. replace (opcode_bitsize - 1 - i) with (bit_position i)
      by (unfold bit_position; lia).
    apply Hbits, Hi.
  - intros Hall. split.
    + assert (Hones : (2 ^ Z.of_nat opcode_bitsize - 1)%Z = Z.ones (Z.of_nat opcode_bitsize))
        by (rewrite Z.ones_equiv; lia).
      apply word_eq_by_positions; [exact Hm|pose proof (pow2_pos opcode_bitsize); lia|].
      intros i Hi. destruct (Hbits i Hi) as [-> _].
      rewrite Hones, Z.ones_spec_low by (pose proof (bit_position_lt i); lia).
      unfold is_binary. destruct (Hall i Hi) as [-> | ->]; reflexivity.
    + apply word_eq_by_positions; [exact He|rewrite <- Hlen; apply read_binary_range|].
      intros i Hi. destruct (Hbits i Hi) as [_ ->].
      unfold bit_position. rewrite <- Hlen. symmetry. apply read_binary_testbit. lia.
Qed.

(** C2: [(x & mask) == expect] holds iff [x] agrees with the pattern at every
    ['0'] and ['1'] position; two words that agree at those positions get the
    same verdict, whatever their bits at ['-'] and field-marker positions. *)
Theorem mask_expect_test_spec (bitstring : list ascii) (mask expect x : Z) :
  length bitstring = opcode_bitsize ->
  GetMaskAndExpect bitstring = (mask, expect) ->
  (Z.land x mask = expect <->
     forall i, i < opcode_bitsize ->
       (char_at bitstring i = "0"%char ->
          Z.testbit x (Z.of_nat (opcode_bitsize - 1 - i)) = false)
       /\ (char_at bitstring i = "1"%char ->
          Z.testbit x (Z.of_nat (opcode_bitsize - 1 - i)) = true))
  /\ (forall y,
        (forall i, i < opcode_bitsize ->
           char_at bitstring i = "0"%char \/ char_at bitstring i = "1"%char ->
           Z.testbit y (Z.of_nat (opcode_bitsize - 1 - i))
             = Z.testbit x (Z.of_nat (opcode_bitsize - 1 - i))) ->
        (Z.land y mask = expect <-> Z.land x mask = expect)).
Proof.
  intros Hlen HG. destruct (GetMaskAndExpect_range _ _ _ HG) as [Hm He].
  assert (Hbits : forall i, i < opcode_bitsize ->
            Z.testbit mask (Z.of_nat (opcode_bitsize - 1 - i)) = is_binary (char_at bitstring i)
            /\ Z.testbit expect (Z.of_nat (opcode_bitsize - 1 - i))
               = (char_at bitstring i =? "1")%char).
  { intros i Hi. replace (opcode_bitsize - 1 - i) with (bit_position i)
      by (unfold bit_position; lia).
    apply GetMaskAndExpect_testbit; assumption. }
  assert (Hiff : forall z,
    Z.land z mask = expect <->
     forall i, i < opcode_bitsize ->
       (char_at bitstring i = "0"%char ->
          Z.testbit z (Z.of_nat (opcode_bitsize - 1 - i)) = false)
       /\ (char_at bitstring i = "1"%char ->
          Z.testbit z (Z.of_nat (opcode_bitsize - 1 - i)) = true)).
  { intros z. split.
    - intros Heq i Hi. destruct (Hbits i Hi) as [Hbm Hbe].
      assert (Hb : Z.testbit (Z.land z mask) (Z.of_nat (opcode_bitsize - 1 - i))
                   = Z.testbit expect (Z.of_nat (opcode_bitsize - 1 - i)))
        by (rewrite Heq; reflexivity).
      rewrite Z.land_spec, Hbm, Hbe in Hb. unfold is_binary in Hb.
      split; intros Hc; rewrite Hc in Hb; simpl in Hb;
        rewrite andb_true_r in Hb; exact Hb.
    - intros Hag. apply word_eq_by_positions'.
      + intros n Hn. rewrite Z.land_spec, (testbit_high mask opcode_bitsize) by auto.
        apply andb_false_r.
      + intros n Hn. apply (testbit_high expect opcode_bitsize); auto.
      + intros i Hi. replace (bit_position i) with (opcode_bitsize - 1 - i)
          by (unfold bit_position; lia).
        destruct (Hbits i Hi) as [Hbm Hbe]. destruct (Hag i Hi) as [H0 H1].
        rewrite Z.land_spec, Hbm, Hbe. unfold is_binary.
        destruct (char_at bitstring i =? "0")%char eqn:E0.
        * apply Ascii.eqb_eq in E0. rewrite (H0 E0), E0. reflexivity.
        * destruct (char_at bitstring i =? "1")%char eqn:E1; simpl.
          -- apply Ascii.eqb_eq in E1. rewrite (H1 E1). reflexivity.
          -- apply andb_false_r. }
  split; [apply Hiff|].
  intros y Hy. rewrite !Hiff. split; intros H i Hi; destruct (H i Hi) as [H0 H1].
  - split; intros Hc; rewrite <- Hy by auto; auto.
  - split; intros Hc; rewrite Hy by auto; auto.
Qed.

(** ** Patterns without NUL *)

Lemma has_nul_false (bitstring : list ascii) :
  has_nul bitstring = false -> no_nul bitstring.
Proof.
  intros H i Hi E. destruct (lookup_lt_is_Some_2 bitstring i Hi) as [x Ex].
  unfold char_at in E. rewrite Ex in E. simpl in E. subst x.
  apply list_elem_of_lookup_2, list_elem_of_In in Ex.
  assert (Ht : has_nul bitstring = true)
    by (apply existsb_exists; exists NUL; split; [exact Ex|reflexivity]).
  congruence.
Qed.

Lemma forallb_Forall {A : Type} (f : A -> bool) (l : list A) :
  forallb f l = true -> Forall (fun x => f x = true) l.
Proof.
  intros H. apply Forall_forall. intros x Hx. apply list_elem_of_In in Hx.
  exact (proj1 (forallb_forall f l) H x Hx).
Qed.

(** ** The cursor of [GetArgInfo] *)

Lemma arg_info_body_eq (N : nat) (bitstring : list ascii) (i : nat) (st : arg_state) :
  arg_info_body N bitstring i st =
  let cur := advance (char_at bitstring i) (arg_index st, ch st) in
  if is_fixed_or_dontcare (char_at bitstring i) then
    Ok (ArgState (masks st) (shifts st) (fst cur) (snd cur))
  else if N <=? fst cur then OutOfRange "Unexpected field"
  else
    Ok (ArgState
          (<[fst cur := wrap (Z.lor (mask_at (masks st) (fst cur))
                                    (Z.shiftl one (Z.of_nat (bit_position i))))]> (masks st))
          (<[fst cur := bit_position i]> (shifts st))
          (fst cur) (snd cur)).
Proof.
  destruct st as [ms ss a c]. unfold arg_info_body, advance. simpl.
  destruct (is_fixed_or_dontcare (char_at bitstring i)).
  - destruct (c =? NUL)%char eqn:E; simpl; [|reflexivity].
    apply Ascii.eqb_eq in E. subst c. reflexivity.
  - destruct N as [|N].
    + simpl. destruct (c =? NUL)%char;
        [|destruct (c =? char_at bitstring i)%char]; reflexivity.
    + change (0 <? S N) with true. cbv iota.
      destruct (c =? NUL)%char;
        [|destruct (c =? char_at bitstring i)%char]; reflexivity.
Qed.

Lemma cursor_after_S (bitstring : list ascii) (k : nat) :
  cursor_after bitstring (k + 1) = advance (char_at bitstring k) (cursor_after bitstring k).
Proof. unfold cursor_after. rewrite for_upto_S. reflexivity. Qed.

Lemma fields_upto_S (bitstring : list ascii) (k : nat) :
  fields_upto bitstring (k + 1)
  = fields_upto bitstring k + (if field_start bitstring k then 1 else 0).
Proof.
  unfold fields_upto. rewrite positions_upto_S, length_app.
  destruct (field_start bitstring k); reflexivity.
Qed.

Lemma fields_upto_mono (bitstring : list ascii) (k k' : nat) :
  k <= k' -> fields_upto bitstring k <= fields_upto bitstring k'.
Proof.
  induction 1 as [|k' _ IH]; [lia|].
  replace (S k') with (k' + 1) by lia. rewrite fields_upto_S. lia.
Qed.

Lemma marker_not_fixed (c c' : ascii) :
  is_fixed_or_dontcare c = true -> is_fixed_or_dontcare c' = false -> (c =? c')%char = false.
Proof.
  intros H H'. destruct (c =? c')%char eqn:E; [|reflexivity].
  apply Ascii.eqb_eq in E. congruence.
Qed.

(** The character the cursor holds is the marker just read, if any; the index
    it holds never exceeds the number of fields closed so far, and equals it
    on a pattern without NUL. *)
Lemma cursor_spec (bitstring : list ascii) (k : nat) :
  k <= length bitstring ->
  let open := (0 <? k) && is_marker (char_at bitstring (k - 1)) in
  snd (cursor_after bitstring k) = (if open then char_at bitstring (k - 1) else NUL)
  /\ fst (cursor_after bitstring k) + (if open then 1 else 0) <= fields_upto bitstring k
  /\ (no_nul bitstring ->
      fst (cursor_after bitstring k) + (if open then 1 else 0) = fields_upto bitstring k).
Proof.
  induction k as [|k IH]; intros Hk; [cbn; auto|].
  specialize (IH ltac:(lia)). cbv zeta in IH. destruct IH as (IHc & IHle & IHeq).
  replace (S k) with (k + 1) by lia.
  rewrite cursor_after_S, fields_upto_S.
  replace (k + 1 - 1) with k by lia. replace (0 <? k + 1) with true
    by (symmetry; apply Nat.ltb_lt; lia).
  cbv zeta. rewrite andb_true_l.
  destruct (cursor_after bitstring k) as [a c]. simpl in IHc, IHle, IHeq.
  unfold advance, field_start, is_marker in *.
  destruct ((0 <? k) && negb (is_fixed_or_dontcare (char_at bitstring (k - 1)))) eqn:Eo.
  - (* a field is open: [c] is the marker at [k - 1] *)
    apply andb_true_iff in Eo as [Ek Eo]. apply Nat.ltb_lt in Ek.
    assert (Hk0 : (k =? 0) = false) by (apply Nat.eqb_neq; lia).
    assert (Hnul : no_nul bitstring -> (c =? NUL)%char = false).
    { intros Hnn. apply Ascii.eqb_neq. rewrite IHc. apply Hnn. lia. }
    rewrite Hk0, <- IHc. clear IHc.
    destruct (is_fixed_or_dontcare (char_at bitstring k)) eqn:Efix; simpl.
    + rewrite Nat.add_0_r. destruct (c =? NUL)%char eqn:Ec; simpl.
      * apply Ascii.eqb_eq in Ec. split; [exact Ec|]. split; [lia|].
        intros Hnn. specialize (Hnul Hnn). discriminate.
      * split; [reflexivity|]. split; [lia|]. intros Hnn. specialize (IHeq Hnn). lia.
    + destruct (c =? NUL)%char eqn:Ec; simpl.
      * split; [reflexivity|]. split; [destruct (negb _); lia|].
        intros Hnn. specialize (Hnul Hnn). discriminate.
      * destruct (c =? char_at bitstring k)%char eqn:Ecc; simpl.
        -- apply Ascii.eqb_eq in Ecc. split; [exact Ecc|]. split; [lia|].
           intros Hnn. specialize (IHeq Hnn). lia.
        -- split; [reflexivity|]. split; [lia|].
           intros Hnn. specialize (IHeq Hnn). lia.
  - (* no field is open: [c] is NUL *)
    subst c. change (NUL =? NUL)%char with true. cbv iota. simpl negb. cbv iota.
    destruct (is_fixed_or_dontcare (char_at bitstring k)) eqn:Efix; simpl.
    + rewrite Nat.add_0_r. split; [reflexivity|]. split; [lia|].
      intros Hnn. specialize (IHeq Hnn). lia.
    + assert (Hs : (k =? 0) || negb (char_at bitstring (k - 1) =? char_at bitstring k)%char
                   = true).
      { destruct k as [|k']; [reflexivity|]. simpl in Eo. simpl.
        apply negb_false_iff in Eo.
        rewrite (marker_not_fixed _ _ Eo Efix). reflexivity. }
      rewrite Hs. split; [reflexivity|]. split; [lia|].
      intros Hnn. specialize (IHeq Hnn). lia.
Qed.

(** Index under which the cursor records a marker, against the field the
    marker belongs to. *)
Lemma cursor_index_le (bitstring : list ascii) (i : nat) :
  i < length bitstring -> is_marker (char_at bitstring i) = true ->
  1 <= fields_upto bitstring (i + 1)
  /\ fst (cursor_after bitstring (i + 1)) <= field_of bitstring i.
Proof.
  intros Hi Hm. destruct (cursor_spec bitstring (i + 1) ltac:(lia)) as (_ & Hle & _).
  replace (i + 1 - 1) with i in Hle by lia. rewrite Hm in Hle.
  replace (0 <? i + 1) with true in Hle by (symmetry; apply Nat.ltb_lt; lia).
  simpl in Hle. unfold field_of. lia.
Qed.

Lemma cursor_index_eq (bitstring : list ascii) (i : nat) :
  no_nul bitstring ->
  i < length bitstring -> is_marker (char_at bitstring i) = true ->
  fst (cursor_after bitstring (i + 1)) = field_of bitstring i.
Proof.
  intros Hnn Hi Hm. destruct (cursor_spec bitstring (i + 1) ltac:(lia)) as (_ & _ & Heq).
  specialize (Heq Hnn).
  replace (i + 1 - 1) with i in Heq by lia. rewrite Hm in Heq.
  replace (0 <? i + 1) with true in Heq by (symmetry; apply Nat.ltb_lt; lia).
  simpl in Heq. unfold field_of. lia.
Qed.

Lemma field_of_lt_count (bitstring : list ascii) (i : nat) :
  i < length bitstring -> is_marker (char_at bitstring i) = true ->
  field_of bitstring i < field_count bitstring.
Proof.
  intros Hi Hm. destruct (cursor_index_le bitstring i Hi Hm) as [H1 _].
  pose proof (fields_upto_mono bitstring (i + 1) (length bitstring) ltac:(lia)).
  unfold field_of, field_count. lia.
Qed.

(** Every field index below the number of fields opened so far has a
    position that opened it. *)
Lemma field_start_exists (bitstring : list ascii) (k j : nat) :
  j < fields_upto bitstring k ->
  exists i, i < k /\ field_start bitstring i = true /\ fields_upto bitstring (i + 1) = j + 1.
Proof.
  induction k as [|k IH]; [unfold fields_upto; simpl; lia|].
  replace (S k) with (k + 1) by lia. rewrite fields_upto_S. intros Hj.
  destruct (Nat.lt_ge_cases j (fields_upto bitstring k)) as [Hlt|Hge].
  - destruct (IH Hlt) as (i & Hi & Hs & Hf). exists i. split; [lia|auto].
  - destruct (field_start bitstring k) eqn:E; [|lia].
    exists k. split; [lia|]. split; [exact E|]. rewrite fields_upto_S, E. lia.
Qed.

(** ** The tables of [GetArgInfo] *)

Lemma fmap_seq_const {A : Type} (x : A) (n : nat) :
  (fun _ => x) <$> seq 0 n = replicate n x.
Proof.
  generalize 0. induction n as [|n IH]; intros a; simpl; [reflexivity|].
  f_equal. apply IH.
Qed.

Lemma lookup_fmap_seq {A : Type} (f : nat -> A) (n i : nat) :
  i < n -> (f <$> seq 0 n) !! i = Some (f i).
Proof. intros H. rewrite list_lookup_fmap, lookup_seq_lt by exact H. reflexivity. Qed.

Lemma fmap_seq_ext {A : Type} (f g : nat -> A) (n : nat) :
  (forall j, j < n -> f j = g j) -> f <$> seq 0 n = g <$> seq 0 n.
Proof.
  intros H. apply list_eq. intros i. rewrite !list_lookup_fmap.
  destruct (seq 0 n !! i) as [j|] eqn:E; [|reflexivity].
  apply lookup_seq in E as [-> Hi]. simpl. f_equal. apply H. lia.
Qed.

(** Writing entry [a] of a table given by [f] yields the table given by [g]
    when [g] is [f] but for the value written at [a]. *)
Lemma insert_fmap_seq {A : Type} (f g : nat -> A) (n a : nat) (v : A) :
  a < n -> g a = v -> (forall j, j < n -> j <> a -> g j = f j) ->
  <[a := v]> (f <$> seq 0 n) = g <$> seq 0 n.
Proof.
  intros Ha Hv Hother. apply list_eq. intros i.
  destruct (Nat.lt_ge_cases i n) as [Hi|Hi].
  - rewrite (lookup_fmap_seq g) by exact Hi.
    destruct (Nat.eq_dec i a) as [->|Hne].
    + rewrite list_lookup_insert_eq by (rewrite length_fmap, length_seq; exact Ha).
      f_equal. auto.
    + rewrite list_lookup_insert_ne by auto. rewrite lookup_fmap_seq by exact Hi.
      f_equal. symmetry. auto.
  - rewrite !lookup_ge_None_2; [reflexivity| |];
      rewrite ?length_insert, length_fmap, length_seq; exact Hi.
Qed.

Lemma positions_upto_ext (p q : nat -> bool) (k : nat) :
  (forall i, i < k -> p i = q i) -> positions_upto p k = positions_upto q k.
Proof.
  intros H. unfold positions_upto. apply List.filter_ext_in.
  intros i Hi. apply in_seq in Hi. apply H. lia.
Qed.

Lemma recorded_mask_S (bitstring : list ascii) (k j : nat) :
  recorded_mask bitstring (k + 1) j
  = if recorded_at bitstring j k then Z.lor (recorded_mask bitstring k j) (bit_mask k)
    else recorded_mask bitstring k j.
Proof.
  unfold recorded_mask. rewrite positions_upto_S.
  destruct (recorded_at bitstring j k); [apply or_bits_snoc|rewrite app_nil_r; reflexivity].
Qed.

Lemma recorded_shift_S (bitstring : list ascii) (k j : nat) :
  recorded_shift bitstring (k + 1) j
  = if recorded_at bitstring j k then bit_position k else recorded_shift bitstring k j.
Proof.
  unfold recorded_shift. rewrite positions_upto_S.
  destruct (recorded_at bitstring j k); [|rewrite app_nil_r; reflexivity].
  unfold shift_of. rewrite last_snoc. reflexivity.
Qed.

Lemma arg_info_scan_S (N : nat) (bitstring : list ascii) (k : nat) :
  arg_info_scan N bitstring (k + 1)
  = bind (arg_info_scan N bitstring k) (arg_info_body N bitstring k).
Proof. unfold arg_info_scan. apply for_upto_try_S. Qed.

(** What the scan of the first [k] characters ends in: the tables of the
    positions recorded so far if every marker was recorded under an index
    below [N], and the exception otherwise. *)
Lemma arg_info_scan_spec (N : nat) (bitstring : list ascii) (k : nat) :
  k <= opcode_bitsize ->
  ((forall i, i < k -> is_marker (char_at bitstring i) = true ->
      fst (cursor_after bitstring (i + 1)) < N)
   /\ arg_info_scan N bitstring k
      = Ok (ArgState (recorded_mask bitstring k <$> seq 0 N)
                     (recorded_shift bitstring k <$> seq 0 N)
                     (fst (cursor_after bitstring k)) (snd (cursor_after bitstring k))))
  \/ ((exists i, i < k /\ is_marker (char_at bitstring i) = true
                 /\ N <= fst (cursor_after bitstring (i + 1)))
      /\ arg_info_scan N bitstring k = OutOfRange "Unexpected field").
Proof.
  induction k as [|k IH]; intros Hk.
  - left. split; [intros i Hi; lia|].
    unfold arg_info_scan, for_upto_try. simpl. do 2 f_equal.
    + symmetry. apply (fmap_seq_const 0%Z).
    + symmetry. apply (fmap_seq_const 0).
  - replace (S k) with (k + 1) by lia. rewrite arg_info_scan_S.
    destruct (IH ltac:(lia)) as [[Hgood ->]|[(i & Hi & Hm & Hbad) ->]].
    2:{ right. split; [|reflexivity]. exists i. split; [lia|auto]. }
    simpl bind. rewrite arg_info_body_eq. simpl arg_index. simpl ch. simpl masks.
    simpl shifts. rewrite <- surjective_pairing, <- cursor_after_S. cbv zeta.
    destruct (is_fixed_or_dontcare (char_at bitstring k)) eqn:Efix.
    + left. split.
      * intros i Hi Hm. destruct (Nat.eq_dec i k) as [->|Hne];
          [unfold is_marker in Hm; rewrite Efix in Hm; discriminate|].
        apply Hgood; [lia|exact Hm].
      * do 2 f_equal.
        -- apply fmap_seq_ext. intros j _. rewrite recorded_mask_S.
           unfold recorded_at, is_marker. rewrite Efix. reflexivity.
        -- apply fmap_seq_ext. intros j _. rewrite recorded_shift_S.
           unfold recorded_at, is_marker. rewrite Efix. reflexivity.
    + destruct (N <=? fst (cursor_after bitstring (k + 1))) eqn:EN.
      * right. split; [|reflexivity]. apply Nat.leb_le in EN.
        exists k. split; [lia|]. split; [unfold is_marker; rewrite Efix; reflexivity|exact EN].
      * apply Nat.leb_gt in EN. left. split.
        -- intros i Hi Hm. destruct (Nat.eq_dec i k) as [->|Hne]; [exact EN|].
           apply Hgood; [lia|exact Hm].
        -- assert (Hrec : forall j, recorded_at bitstring j k
                                    = (fst (cursor_after bitstring (k + 1)) =? j)).
           { intros j. unfold recorded_at, is_marker. rewrite Efix. reflexivity. }
           f_equal. f_equal.
           ++ apply insert_fmap_seq; [exact EN| |].
              ** rewrite recorded_mask_S, Hrec, Nat.eqb_refl.
                 unfold mask_at. rewrite lookup_fmap_seq by exact EN. simpl.
                 rewrite shiftl_one by lia. symmetry. apply wrap_small.
                 apply lor_range; [apply or_bits_range|apply bit_mask_range]; lia.
              ** intros j _ Hne. rewrite recorded_mask_S, Hrec.
                 replace (fst (cursor_after bitstring (k + 1)) =? j) with false
                   by (symmetry; apply Nat.eqb_neq; lia).
                 reflexivity.
           ++ apply insert_fmap_seq; [exact EN| |].
              ** rewrite recorded_shift_S, Hrec, Nat.eqb_refl. reflexivity.
              ** intros j _ Hne. rewrite recorded_shift_S, Hrec.
                 replace (fst (cursor_after bitstring (k + 1)) =? j) with false
                   by (symmetry; apply Nat.eqb_neq; lia).
                 reflexivity.
Qed.

Lemma all_nonzero_spec (ms : list Z) :
  all_nonzero ms = true <-> forall j m, ms !! j = Some m -> m <> 0%Z.
Proof.
  unfold all_nonzero. rewrite forallb_forall. split; intros H.
  - intros j m Hj. apply list_elem_of_lookup_2, list_elem_of_In in Hj.
    specialize (H m Hj). apply negb_true_iff, Z.eqb_neq in H. exact H.
  - intros x Hx. apply list_elem_of_In, list_elem_of_lookup in Hx as [j Hj].
    apply negb_true_iff, Z.eqb_neq. eauto.
Qed.

Lemma positions_upto_none (p : nat -> bool) (k : nat) :
  (forall i, i < k -> p i = false) -> positions_upto p k = [].
Proof.
  intros H. induction k as [|k IH]; [reflexivity|].
  replace (S k) with (k + 1) by lia.
  rewrite positions_upto_S, IH, H by (auto; intros; apply H; lia). reflexivity.
Qed.

(** The scan succeeds when every marker is recorded under an index below [N]. *)
Lemma arg_info_scan_ok (N : nat) (bitstring : list ascii) :
  (forall i, i < opcode_bitsize -> is_marker (char_at bitstring i) = true ->
     fst (cursor_after bitstring (i + 1)) < N) ->
  arg_info_scan N bitstring opcode_bitsize
  = Ok (ArgState (recorded_mask bitstring opcode_bitsize <$> seq 0 N)
                 (recorded_shift bitstring opcode_bitsize <$> seq 0 N)
                 (fst (cursor_after bitstring opcode_bitsize))
                 (snd (cursor_after bitstring opcode_bitsize))).
Proof.
  intros H.
  destruct (arg_info_scan_spec N bitstring opcode_bitsize ltac:(lia))
    as [[_ E]|[(i & Hi & Hm & Hbad) _]]; [exact E|].
  specialize (H i Hi Hm). lia.
Qed.

(** The scan throws when some marker is recorded under an index that is not
    below [N]. *)
Lemma arg_info_scan_throws (N : nat) (bitstring : list ascii) (i : nat) :
  i < opcode_bitsize -> is_marker (char_at bitstring i) = true ->
  N <= fst (cursor_after bitstring (i + 1)) ->
  arg_info_scan N bitstring opcode_bitsize = OutOfRange "Unexpected field".
Proof.
  intros Hi Hm Hbad.
  destruct (arg_info_scan_spec N bitstring opcode_bitsize ltac:(lia))
    as [[Hgood _]|[_ E]]; [|exact E].
  specialize (Hgood i Hi Hm). lia.
Qed.

Lemma recorded_at_in_field (bitstring : list ascii) (j i : nat) :
  no_nul bitstring -> i < length bitstring ->
  recorded_at bitstring j i = in_field bitstring j i.
Proof.
  intros Hnn Hi. unfold recorded_at, in_field.
  destruct (is_marker (char_at bitstring i)) eqn:Em; [|reflexivity].
  rewrite cursor_index_eq by assumption. reflexivity.
Qed.

Lemma recorded_mask_field (bitstring : list ascii) (j : nat) :
  no_nul bitstring ->
  recorded_mask bitstring (length bitstring) j = field_mask bitstring j.
Proof.
  intros Hnn. unfold recorded_mask, field_mask, field_positions. f_equal.
  apply positions_upto_ext. intros i Hi. apply recorded_at_in_field; assumption.
Qed.

Lemma recorded_shift_field (bitstring : list ascii) (j : nat) :
  no_nul bitstring ->
  recorded_shift bitstring (length bitstring) j = field_shift bitstring j.
Proof.
  intros Hnn. unfold recorded_shift, field_shift, field_positions. f_equal.
  apply positions_upto_ext. intros i Hi. apply recorded_at_in_field; assumption.
Qed.

Lemma field_start_marker (bitstring : list ascii) (i : nat) :
  field_start bitstring i = true -> is_marker (char_at bitstring i) = true.
Proof. unfold field_start. intros H. apply andb_true_iff in H. apply H. Qed.

(** Every field of the pattern has a position, so its mask is not zero. *)
Lemma field_mask_nonzero (bitstring : list ascii) (j : nat) :
  length bitstring = opcode_bitsize -> j < field_count bitstring ->
  field_mask bitstring j <> 0%Z.
Proof.
  intros Hlen Hj. destruct (field_start_exists bitstring _ j Hj) as (i & Hi & Hs & Hf).
  assert (Hbit : Z.testbit (field_mask bitstring j) (Z.of_nat (bit_position i)) = true).
  { unfold field_mask, field_positions. rewrite testbit_or_positions by lia.
    apply andb_true_iff. split; [apply Nat.ltb_lt; lia|].
    unfold in_field, field_of. rewrite (field_start_marker _ _ Hs), Hf. simpl.
    apply Nat.eqb_eq. lia. }
  intros E. rewrite E, Z.bits_0 in Hbit. discriminate.
Qed.

(** On a pattern without NUL that has exactly [N] fields, [GetArgInfo<N>]
    returns the table of the field masks and field shifts. *)
Lemma GetArgInfo_exact (ignore_asserts : bool) (N : nat) (bitstring : list ascii) :
  no_nul bitstring -> length bitstring = opcode_bitsize -> field_count bitstring = N ->
  GetArgInfo ignore_asserts N bitstring
  = Ok (field_mask bitstring <$> seq 0 N, field_shift bitstring <$> seq 0 N)
  /\ all_nonzero (field_mask bitstring <$> seq 0 N) = true.
Proof.
  intros Hnn Hlen HN.
  assert (Hnz : all_nonzero (field_mask bitstring <$> seq 0 N) = true).
  { apply all_nonzero_spec. intros j m Hjm.
    assert (Hj : j < N).
    { apply lookup_lt_Some in Hjm. rewrite length_fmap, length_seq in Hjm. exact Hjm. }
    rewrite lookup_fmap_seq in Hjm by exact Hj. injection Hjm as <-.
    apply field_mask_nonzero; [exact Hlen|lia]. }
  split; [|exact Hnz].
  unfold GetArgInfo. rewrite arg_info_scan_ok.
  - simpl. rewrite <- Hlen.
    rewrite (fmap_seq_ext _ (field_mask bitstring))
      by (intros; apply recorded_mask_field, Hnn).
    rewrite (fmap_seq_ext _ (field_shift bitstring))
      by (intros; apply recorded_shift_field, Hnn).
    rewrite Hnz. destruct ignore_asserts; reflexivity.
  - intros i Hi Hm. rewrite cursor_index_eq by (auto; lia).
    rewrite <- HN. apply field_of_lt_count; [lia|exact Hm].
Qed.

(** C3 (amended): on a pattern that holds no NUL character and has exactly
    [N] distinct fields, [GetArgInfo<N>] returns, for each field index [k],
    the OR of the single-bit masks of the positions of field [k] and the bit
    position of the last-scanned position of field [k]. *)
Theorem GetArgInfo_field_tables
    (ignore_asserts : bool) (N : nat) (bitstring : list ascii) :
  has_nul bitstring = false -> length bitstring = opcode_bitsize -> field_count bitstring = N ->
  exists masks shifts,
    GetArgInfo ignore_asserts N bitstring = Ok (masks, shifts)
    /\ length masks = N /\ length shifts = N
    /\ forall k, k < N ->
         masks !! k = Some (or_bits (field_positions bitstring k))
         /\ shifts !! k = Some (shift_of (field_positions bitstring k)).
Proof.
  intros Hnn Hlen HN. apply has_nul_false in Hnn.
  destruct (GetArgInfo_exact ignore_asserts N bitstring Hnn Hlen HN) as [E _].
  eexists _, _. split; [exact E|].
  rewrite !length_fmap, !length_seq. split; [reflexivity|]. split; [reflexivity|].
  intros k Hk. rewrite !lookup_fmap_seq by exact Hk. split; reflexivity.
Qed.

(** C8 (amended): on a pattern that holds no NUL character and has exactly
    [N] distinct fields, the scan of [GetArgInfo<N>] throws nothing, every
    entry of the mask table is non-zero, so the final [ASSERT] holds, and the
    tables are returned whether assertions are compiled in or not. *)
Theorem GetArgInfo_exact_arity_succeeds (N : nat) (bitstring : list ascii) :
  has_nul bitstring = false -> length bitstring = opcode_bitsize -> field_count bitstring = N ->
  exists st,
    arg_info_scan N bitstring opcode_bitsize = Ok st
    /\ all_nonzero (masks st) = true
    /\ (forall j m, masks st !! j = Some m -> m <> 0%Z)
    /\ forall ignore_asserts,
         GetArgInfo ignore_asserts N bitstring = Ok (masks st, shifts st).
Proof.
  intros Hnn Hlen HN. apply has_nul_false in Hnn.
  destruct (GetArgInfo_exact false N bitstring Hnn Hlen HN) as [E Hnz].
  unfold GetArgInfo in *.
  destruct (arg_info_scan N bitstring opcode_bitsize) as [st| |]; try discriminate.
  simpl in E. unfold ASSERT in E.
  destruct (all_nonzero (masks st)) eqn:Est; [|discriminate].
  exists st. split; [reflexivity|]. split; [exact Est|].
  split; [apply all_nonzero_spec, Est|].
  intros [|]; simpl; [reflexivity|]. rewrite Est. reflexivity.
Qed.

(** C6 (amended): when the pattern has more distinct fields than [N], and
    holds no NUL character or [N = 0], the scan of [GetArgInfo<N>] throws
    [std::out_of_range], so no table is returned, whether assertions are
    compiled in or not. *)
Theorem GetArgInfo_too_many_fields
    (ignore_asserts : bool) (N : nat) (bitstring : list ascii) :
  length bitstring = opcode_bitsize ->
  has_nul bitstring = false \/ N = 0 ->
  N < field_count bitstring ->
  arg_info_scan N bitstring opcode_bitsize = OutOfRange "Unexpected field"
  /\ GetArgInfo ignore_asserts N bitstring = OutOfRange "Unexpected field".
Proof.
  intros Hlen Hcase HN.
  destruct (field_start_exists bitstring _ N HN) as (i & Hi & Hs & Hf).
  assert (E : arg_info_scan N bitstring opcode_bitsize = OutOfRange "Unexpected field").
  { apply (arg_info_scan_throws N bitstring i); [lia|apply field_start_marker, Hs|].
    destruct Hcase as [Hnn| ->]; [apply has_nul_false in Hnn|lia].
    rewrite cursor_index_eq by (auto using field_start_marker).
    unfold field_of. lia. }
  split; [exact E|]. unfold GetArgInfo. rewrite E. reflexivity.
Qed.

(** With fewer fields than [N] the scan throws nothing and leaves entry
    [field_count] of the mask table at zero. *)
Lemma arg_info_scan_too_few (N : nat) (bitstring : list ascii) :
  length bitstring = opcode_bitsize -> field_count bitstring < N ->
  exists st,
    arg_info_scan N bitstring opcode_bitsize = Ok st
    /\ length (masks st) = N
    /\ masks st !! field_count bitstring = Some 0%Z
    /\ all_nonzero (masks st) = false.
Proof.
  intros Hlen HN.
  assert (Hidx : forall i, i < opcode_bitsize -> is_marker (char_at bitstring i) = true ->
                   fst (cursor_after bitstring (i + 1)) < field_count bitstring).
  { intros i Hi Hm. destruct (cursor_index_le bitstring i ltac:(lia) Hm) as [_ Hle].
    pose proof (field_of_lt_count bitstring i ltac:(lia) Hm). lia. }
  eexists. split; [apply arg_info_scan_ok; intros i Hi Hm; specialize (Hidx i Hi Hm); lia|].
  simpl masks.
  assert (H0 : (recorded_mask bitstring opcode_bitsize <$> seq 0 N) !! field_count bitstring
               = Some 0%Z).
  { rewrite lookup_fmap_seq by exact HN. f_equal. unfold recorded_mask.
    rewrite positions_upto_none; [reflexivity|].
    intros i Hi. unfold recorded_at.
    destruct (is_marker (char_at bitstring i)) eqn:Em; [|reflexivity].
    specialize (Hidx i Hi Em). simpl. apply Nat.eqb_neq. lia. }
  split; [rewrite length_fmap, length_seq; reflexivity|]. split; [exact H0|].
  apply not_true_is_false. intros Hall.
  apply (proj1 (all_nonzero_spec _) Hall _ _ H0). reflexivity.
Qed.

(** C10: with strictly fewer distinct fields than [N], the scan of
    [GetArgInfo<N>] throws no [std::out_of_range]; it completes with an entry
    of the mask table still zero, so the final [ASSERT] fails when assertions
    are compiled in, and the table with its zero entry is returned when they
    are compiled out. *)
Theorem GetArgInfo_too_few_fields (N : nat) (bitstring : list ascii) :
  length bitstring = opcode_bitsize -> field_count bitstring < N ->
  exists st,
    arg_info_scan N bitstring opcode_bitsize = Ok st
    /\ (exists j, j < N /\ masks st !! j = Some 0%Z)
    /\ all_nonzero (masks st) = false
    /\ GetArgInfo false N bitstring = AssertionFailure
    /\ GetArgInfo true N bitstring = Ok (masks st, shifts st).
Proof.
  intros Hlen HN.
  destruct (arg_info_scan_too_few N bitstring Hlen HN) as (st & E & Hl & H0 & Hall).
  exists st. split; [exact E|]. split; [exists (field_count bitstring); auto|].
  split; [exact Hall|]. unfold GetArgInfo. rewrite E. simpl. rewrite Hall.
  split; reflexivity.
Qed.

(** C7 (amended): a field count that differs from [N] is caught in two
    different ways.  More fields than [N] (on a pattern without NUL, or with
    [N = 0]): [GetArgInfo<N>] throws [std::out_of_range].  Fewer fields than
    [N]: nothing is thrown; the final [ASSERT] fails when assertions are
    compiled in, and a table with a zero mask is returned when they are
    compiled out. *)
Theorem GetArgInfo_arity_mismatch (N : nat) (bitstring : list ascii) :
  length bitstring = opcode_bitsize ->
  (N < field_count bitstring -> has_nul bitstring = false \/ N = 0 ->
     forall ignore_asserts,
       GetArgInfo ignore_asserts N bitstring = OutOfRange "Unexpected field")
  /\ (field_count bitstring < N ->
        GetArgInfo false N bitstring = AssertionFailure
        /\ exists masks shifts,
             GetArgInfo true N bitstring = Ok (masks, shifts)
             /\ exists j, j < N /\ masks !! j = Some 0%Z).
Proof.
  intros Hlen. split.
  - intros HN Hcase ignore_asserts.
    destruct (field_start_exists bitstring _ N HN) as (i & Hi & Hs & Hf).
    unfold GetArgInfo.
    rewrite (arg_info_scan_throws N bitstring i); [reflexivity|lia| |].
    + apply field_start_marker, Hs.
    + destruct Hcase as [Hnn| ->]; [apply has_nul_false in Hnn|lia].
      rewrite cursor_index_eq by (auto using field_start_marker).
      unfold field_of. lia.
  - intros HN.
    destruct (arg_info_scan_too_few N bitstring Hlen HN) as (st & E & Hl & H0 & Hall).
    unfold GetArgInfo. rewrite E. simpl. rewrite Hall. split; [reflexivity|].
    exists (masks st), (shifts st). split; [reflexivity|].
    exists (field_count bitstring). auto.
Qed.

(** ** Order of the argument indices *)

(** A marker that comes after a fixed or don't-care character belongs to a
    field opened after that character. *)
Lemma fields_after_separator (bitstring : list ascii) (j l : nat) :
  j < l -> is_fixed_or_dontcare (char_at bitstring j) = true ->
  is_marker (char_at bitstring l) = true ->
  fields_upto bitstring (j + 1) < fields_upto bitstring (l + 1).
Proof.
  intros Hjl Hfix. induction l as [|l IH]; intros Hm; [lia|].
  replace (S l + 1) with ((l + 1) + 1) by lia. rewrite (fields_upto_S _ (l + 1)).
  replace (l + 1) with (S l) by lia.
  destruct (field_start bitstring (S l)) eqn:Es.
  - pose proof (fields_upto_mono bitstring (j + 1) (S l) ltac:(lia)). lia.
  - unfold field_start in Es. rewrite Hm in Es. simpl in Es.
    apply negb_false_iff, Ascii.eqb_eq in Es. rewrite Nat.sub_0_r in Es.
    assert (Hml : is_marker (char_at bitstring l) = true) by (rewrite Es; exact Hm).
    assert (j <> l).
    { intros ->. unfold is_marker in Hml. rewrite Hfix in Hml. discriminate. }
    replace (S l) with (l + 1) by lia. specialize (IH ltac:(lia) Hml). lia.
Qed.

Lemma assigned_index_field_of (N : nat) (bitstring : list ascii) (i : nat) :
  no_nul bitstring -> length bitstring = opcode_bitsize ->
  i < opcode_bitsize -> is_marker (char_at bitstring i) = true ->
  fields_upto bitstring (i + 1) <= N ->
  assigned_index N bitstring i = Some (field_of bitstring i).
Proof.
  intros Hnn Hlen Hi Hm HN. unfold assigned_index.
  destruct (arg_info_scan_spec N bitstring (i + 1) ltac:(lia))
    as [[_ ->]|[(i' & Hi' & Hm' & Hbad) _]].
  - simpl. rewrite cursor_index_eq by (auto; lia). reflexivity.
  - rewrite cursor_index_eq in Hbad by (auto; lia).
    destruct (cursor_index_le bitstring i' ltac:(lia) Hm') as [H1 _].
    pose proof (fields_upto_mono bitstring (i' + 1) (i + 1) ltac:(lia)).
    unfold field_of in Hbad. lia.
Qed.

(** C5 (amended): on a pattern that holds no NUL character, and as long as
    the fields opened so far fit the arity [N] (so that nothing was thrown),
    the index under which [GetArgInfo] records a marker is the number of
    fields opened before its own field: indices follow the order of first
    appearance; a marker that directly follows a different marker gets the
    next index; a marker that comes after a ['0'], ['1'] or ['-'] gets an
    index greater than that of every marker before that character, whatever
    its own character. *)
Theorem arg_index_order (N : nat) (bitstring : list ascii) :
  has_nul bitstring = false -> length bitstring = opcode_bitsize ->
  (forall i, i < opcode_bitsize -> is_marker (char_at bitstring i) = true ->
     fields_upto bitstring (i + 1) <= N ->
     assigned_index N bitstring i = Some (fields_upto bitstring (i + 1) - 1))
  /\ (forall i l, i <= l -> l < opcode_bitsize ->
        is_marker (char_at bitstring i) = true -> is_marker (char_at bitstring l) = true ->
        fields_upto bitstring (l + 1) <= N ->
        exists a b, assigned_index N bitstring i = Some a
                    /\ assigned_index N bitstring l = Some b /\ a <= b)
  /\ (forall i, i + 1 < opcode_bitsize ->
        is_marker (char_at bitstring i) = true ->
        is_marker (char_at bitstring (i + 1)) = true ->
        char_at bitstring i <> char_at bitstring (i + 1) ->
        fields_upto bitstring (i + 2) <= N ->
        exists a, assigned_index N bitstring i = Some a
                  /\ assigned_index N bitstring (i + 1) = Some (a + 1))
  /\ (forall i j l, i < j -> j < l -> l < opcode_bitsize ->
        is_marker (char_at bitstring i) = true ->
        is_fixed_or_dontcare (char_at bitstring j) = true ->
        is_marker (char_at bitstring l) = true ->
        fields_upto bitstring (l + 1) <= N ->
        exists a b, assigned_index N bitstring i = Some a
                    /\ assigned_index N bitstring l = Some b /\ a < b).
Proof.
  intros Hnn Hlen. apply has_nul_false in Hnn.
  assert (Hidx : forall i, i < opcode_bitsize -> is_marker (char_at bitstring i) = true ->
                   fields_upto bitstring (i + 1) <= N ->
                   assigned_index N bitstring i = Some (field_of bitstring i))
    by (intros; apply assigned_index_field_of; assumption).
  assert (Hpos : forall i, i < opcode_bitsize -> is_marker (char_at bitstring i) = true ->
                   1 <= fields_upto bitstring (i + 1))
    by (intros i Hi Hm; apply cursor_index_le; [lia|exact Hm]).
  assert (Hmono : forall i l, i <= l ->
                    fields_upto bitstring (i + 1) <= fields_upto bitstring (l + 1))
    by (intros; apply fields_upto_mono; lia).
  split; [exact Hidx|]. split; [|split].
  - intros i l Hil Hl Hmi Hml HN. exists (field_of bitstring i), (field_of bitstring l).
    specialize (Hmono i l Hil).
    split; [apply Hidx; [lia|exact Hmi|lia]|]. split; [apply Hidx; assumption|].
    unfold field_of. lia.
  - intros i Hi Hmi Hmi' Hne HN. replace (i + 2) with (i + 1 + 1) in HN by lia.
    exists (field_of bitstring i). specialize (Hmono i (i + 1) ltac:(lia)).
    split; [apply Hidx; [lia|exact Hmi|lia]|]. rewrite Hidx by assumption. f_equal.
    unfold field_of. rewrite (fields_upto_S _ (i + 1)).
    assert (Hs : field_start bitstring (i + 1) = true).
    { unfold field_start. rewrite Hmi'. replace (i + 1 - 1) with i by lia.
      replace (i + 1 =? 0) with false by (symmetry; apply Nat.eqb_neq; lia).
      simpl. apply negb_true_iff, Ascii.eqb_neq, Hne. }
    rewrite Hs. specialize (Hpos i ltac:(lia) Hmi). lia.
  - intros i j l Hij Hjl Hl Hmi Hfix Hml HN.
    exists (field_of bitstring i), (field_of bitstring l).
    pose proof (Hmono i l ltac:(lia)).
    split; [apply Hidx; [lia|exact Hmi|lia]|]. split; [apply Hidx; assumption|].
    pose proof (fields_after_separator bitstring j l Hjl Hfix Hml).
    pose proof (Hmono i j ltac:(lia)).
    specialize (Hpos i ltac:(lia) Hmi). unfold field_of. lia.
Qed.

(** ** The dispatch callable *)

Lemma land_range (a b : Z) (n : nat) :
  (0 <= a < 2 ^ Z.of_nat n)%Z -> (0 <= Z.land a b < 2 ^ Z.of_nat n)%Z.
Proof.
  intros Ha.
  assert (E : (Z.land a b mod 2 ^ Z.of_nat n = Z.land a b)%Z).
  { apply Z.bits_inj'. intros m Hm.
    destruct (Z_lt_le_dec m (Z.of_nat n)) as [Hlt|Hge].
    - apply Z.mod_pow2_bits_low. lia.
    - rewrite Z.mod_pow2_bits_high by lia.
      rewrite Z.land_spec, (testbit_high a n); auto. }
  rewrite <- E. apply Z.mod_pos_bound, pow2_pos.
Qed.

(** An extracted field is a non-negative word: mask-and-shift zero-extends. *)
Lemma decode_field_range (mask : Z) (shift : nat) (x : Z) :
  (0 <= x < 2 ^ Z.of_nat opcode_bitsize)%Z ->
  (0 <= decode_field mask shift x < 2 ^ Z.of_nat opcode_bitsize)%Z.
Proof.
  intros Hx. unfold decode_field.
  pose proof (land_range x mask opcode_bitsize Hx) as Hl.
  rewrite Z.shiftr_div_pow2 by lia. pose proof (pow2_pos shift). split.
  - apply Z.div_pos; lia.
  - apply Z.div_lt_upper_bound; nia.
Qed.

(** Expanding the packs over the index sequence [a, a+1, ...] reads the two
    arrays from entry [a] on, one entry per parameter. *)
Lemma expand_args_seq (Args : list arg_type) (a : nat)
    (arg_masks : list Z) (arg_shifts : list nat) (x : Z) :
  length arg_masks = a + length Args -> length arg_shifts = a + length Args ->
  expand_args Args (seq a (length Args)) arg_masks arg_shifts x
  = extract_fields Args (combine (drop a arg_masks) (drop a arg_shifts)) x.
Proof.
  revert a. induction Args as [|T Ts IH]; intros a Hm Hs; [reflexivity|].
  simpl in Hm, Hs. simpl length. simpl seq. simpl expand_args.
  destruct (lookup_lt_is_Some_2 arg_masks a ltac:(lia)) as [m Em].
  destruct (lookup_lt_is_Some_2 arg_shifts a ltac:(lia)) as [sh Es].
  rewrite (drop_S _ _ _ Em), (drop_S _ _ _ Es). simpl.
  unfold mask_at, shift_at, decode_field. rewrite Em, Es. simpl.
  f_equal. apply IH; lia.
Qed.

(** C4: the dispatch callable built by [GetMatcher] through
    [VisitorCaller::Make] calls the handler on the visitor with, as [j]-th
    argument, [cast<Tj>((x & maskj) >> shiftj)]: the field is extracted as a
    non-negative word (zero-extended) and then converted to the parameter
    type.  This holds for handlers that may change the visitor and for const
    handlers alike; the name, mask and expect word are stored unchanged. *)
Theorem dispatch_spec (Visitor CallRetT : Type) (Args : list arg_type)
    (name : string) (mask expect : Z) (arg_masks : list Z) (arg_shifts : list nat) :
  length arg_masks = length Args -> length arg_shifts = length Args ->
  (forall (fn : handler Visitor CallRetT Args) (v : Visitor) (x : Z),
     matcher_fn _ (GetMatcher Visitor CallRetT Args fn name (mask, expect)
                              (arg_masks, arg_shifts)) v x
     = fn v (extract_fields Args (combine arg_masks arg_shifts) x))
  /\ (forall (fn : const_handler Visitor CallRetT Args) (v : Visitor) (x : Z),
        matcher_fn _ (GetMatcher_const Visitor CallRetT Args fn name (mask, expect)
                                       (arg_masks, arg_shifts)) v x
        = fn v (extract_fields Args (combine arg_masks arg_shifts) x))
  /\ (forall (x m : Z) (sh : nat),
        (0 <= x < 2 ^ Z.of_nat opcode_bitsize)%Z ->
        (0 <= Z.shiftr (Z.land x m) (Z.of_nat sh) < 2 ^ Z.of_nat opcode_bitsize)%Z).
Proof.
  intros Hm Hs.
  assert (E : forall x,
            expand_args Args (seq 0 (length Args)) arg_masks arg_shifts x
            = extract_fields Args (combine arg_masks arg_shifts) x)
    by (intros x; apply (expand_args_seq Args 0); simpl; assumption).
  split; [|split].
  - intros fn v x. simpl. unfold Make. rewrite E. reflexivity.
  - intros fn v x. simpl. unfold Make_const. rewrite E. reflexivity.
  - intros x m sh Hx. apply (decode_field_range m sh x Hx).
Qed.

(** ** A pattern with a single field *)

Lemma shift_of_positions_S (p : nat -> bool) (k : nat) :
  shift_of (positions_upto p (k + 1))
  = if p k then bit_position k else shift_of (positions_upto p k).
Proof.
  rewrite positions_upto_S. destruct (p k); [|rewrite app_nil_r; reflexivity].
  unfold shift_of. rewrite last_snoc. reflexivity.
Qed.

Lemma shift_of_last (p : nat -> bool) (j k : nat) :
  j < k -> p j = true -> (forall i, j < i -> i < k -> p i = false) ->
  shift_of (positions_upto p k) = bit_position j.
Proof.
  intros Hjk Hj. induction k as [|k IH]; intros Hafter; [lia|].
  replace (S k) with (k + 1) by lia. rewrite shift_of_positions_S.
  destruct (Nat.eq_dec j k) as [<-|Hne]; [rewrite Hj; reflexivity|].
  rewrite (Hafter k) by lia. apply IH; [lia|]. intros i H1 H2. apply Hafter; lia.
Qed.

Lemma length_positions_interval (a n k : nat) :
  a + n <= k ->
  length (positions_upto (fun i => (a <=? i) && (i <? a + n)) k) = n.
Proof.
  assert (H : forall k, length (positions_upto (fun i => (a <=? i) && (i <? a + n)) k)
                        = Nat.min k (a + n) - Nat.min k a).
  { clear k. induction k as [|k IH]; [reflexivity|].
    replace (S k) with (k + 1) by lia. rewrite positions_upto_S, length_app, IH.
    destruct (Nat.leb_spec a k), (Nat.ltb_spec k (a + n)); simpl; lia. }
  intros Hk. rewrite H. lia.
Qed.

Section SingleField.

Variables (pre post : list ascii) (c : ascii) (n : nat).
Local Abbreviation bitstring := (pre ++ replicate n c ++ post).

Hypothesis Hlen : length bitstring = opcode_bitsize.
Hypothesis Hpre : Forall (fun x => is_fixed_or_dontcare x = true) pre.
Hypothesis Hpost : Forall (fun x => is_fixed_or_dontcare x = true) post.
Hypothesis Hc : is_marker c = true.
Hypothesis Hn : 0 < n.

Lemma single_width : length pre + n + length post = opcode_bitsize.
Proof.
  rewrite <- Hlen. rewrite !length_app, length_replicate. lia.
Qed.

Lemma single_char_run (i : nat) :
  length pre <= i -> i < length pre + n -> char_at bitstring i = c.
Proof.
  intros H1 H2. rewrite char_at_app_r by exact H1.
  rewrite char_at_app_l by (rewrite length_replicate; lia).
  unfold char_at. rewrite lookup_replicate_2 by lia. reflexivity.
Qed.

Lemma fixed_char_at (l : list ascii) (i : nat) :
  Forall (fun x => is_fixed_or_dontcare x = true) l -> i < length l ->
  is_fixed_or_dontcare (char_at l i) = true.
Proof.
  intros Hl Hi. destruct (lookup_lt_is_Some_2 l i Hi) as [x Ex].
  unfold char_at. rewrite Ex. simpl. exact (proj1 (Forall_lookup _ l) Hl i x Ex).
Qed.

Lemma single_marker (i : nat) :
  i < opcode_bitsize ->
  is_marker (char_at bitstring i) = (length pre <=? i) && (i <? length pre + n).
Proof.
  intros Hi. pose proof single_width as Hw.
  destruct (Nat.leb_spec (length pre) i) as [H1|H1]; simpl.
  - destruct (Nat.ltb_spec i (length pre + n)) as [H2|H2].
    + rewrite single_char_run by assumption. exact Hc.
    + rewrite char_at_app_r by exact H1.
      rewrite char_at_app_r by (rewrite length_replicate; lia).
      unfold is_marker. rewrite fixed_char_at; [reflexivity|exact Hpost|].
      rewrite length_replicate. lia.
  - rewrite char_at_app_l by exact H1.
    unfold is_marker. rewrite fixed_char_at; auto.
Qed.

Lemma single_field_start (i : nat) :
  i < opcode_bitsize -> field_start bitstring i = true -> i = length pre.
Proof.
  intros Hi Hs. unfold field_start in Hs. apply andb_true_iff in Hs as [Hm Hs].
  rewrite single_marker in Hm by exact Hi.
  apply andb_true_iff in Hm as [H1 H2]. apply Nat.leb_le in H1. apply Nat.ltb_lt in H2.
  destruct (Nat.eq_dec i (length pre)) as [E|E]; [exact E|exfalso].
  rewrite !single_char_run in Hs by lia. rewrite Ascii.eqb_refl in Hs.
  replace (i =? 0) with false in Hs by (symmetry; apply Nat.eqb_neq; lia).
  discriminate.
Qed.

Lemma single_fields_upto (k : nat) :
  k <= opcode_bitsize -> fields_upto bitstring k <= (if length pre <? k then 1 else 0).
Proof.
  induction k as [|k IH]; intros Hk; [unfold fields_upto; simpl; lia|].
  replace (S k) with (k + 1) by lia. rewrite fields_upto_S.
  specialize (IH ltac:(lia)).
  destruct (field_start bitstring k) eqn:Es.
  - apply single_field_start in Es; [|lia]. subst k.
    rewrite Nat.ltb_irrefl in IH.
    replace (length pre <? length pre + 1) with true by (symmetry; apply Nat.ltb_lt; lia).
    lia.
  - destruct (Nat.ltb_spec (length pre) k), (Nat.ltb_spec (length pre) (k + 1)); lia.
Qed.

Lemma single_index (i : nat) :
  i < opcode_bitsize -> is_marker (char_at bitstring i) = true ->
  fst (cursor_after bitstring (i + 1)) = 0.
Proof.
  intros Hi Hm. destruct (cursor_index_le bitstring i ltac:(lia) Hm) as [_ Hle].
  pose proof (single_fields_upto (i + 1) ltac:(lia)) as Hf.
  unfold field_of in Hle. destruct (length pre <? i + 1); lia.
Qed.

Lemma single_field_count : field_count bitstring = 1.
Proof.
  pose proof single_width as Hw.
  pose proof (single_fields_upto opcode_bitsize ltac:(lia)) as Hle.
  assert (Hm : is_marker (char_at bitstring (length pre)) = true)
    by (rewrite single_char_run by lia; exact Hc).
  destruct (cursor_index_le bitstring (length pre) ltac:(lia) Hm) as [H1 _].
  pose proof (fields_upto_mono bitstring (length pre + 1) (length bitstring) ltac:(lia)).
  unfold field_count. rewrite Hlen in *. destruct (length pre <? opcode_bitsize); lia.
Qed.

Lemma single_recorded (i : nat) :
  i < opcode_bitsize ->
  recorded_at bitstring 0 i = (length pre <=? i) && (i <? length pre + n).
Proof.
  intros Hi. unfold recorded_at. rewrite <- single_marker by exact Hi.
  destruct (is_marker (char_at bitstring i)) eqn:Em; [|reflexivity].
  rewrite single_index by assumption. reflexivity.
Qed.

Local Abbreviation single_mask := (run_mask n (length post)).

Lemma single_mask_range : (0 <= single_mask < 2 ^ Z.of_nat opcode_bitsize)%Z.
Proof.
  unfold run_mask. rewrite Z.shiftl_mul_pow2, Z.ones_equiv by lia.
  rewrite <- single_width.
  replace (Z.of_nat (length pre + n + length post))
    with (Z.of_nat (length pre) + (Z.of_nat n + Z.of_nat (length post)))%Z by lia.
  rewrite !Z.pow_add_r by lia.
  pose proof (pow2_pos (length pre)). pose proof (pow2_pos n).
  pose proof (pow2_pos (length post)). nia.
Qed.

Lemma single_mask_testbit (b : Z) :
  Z.testbit single_mask b
  = (Z.of_nat (length post) <=? b)%Z && (b <? Z.of_nat (length post) + Z.of_nat n)%Z.
Proof.
  unfold run_mask.
  destruct (Z.leb_spec (Z.of_nat (length post)) b) as [H1|H1]; simpl.
  - rewrite Z.shiftl_spec by lia.
    destruct (Z.ltb_spec b (Z.of_nat (length post) + Z.of_nat n)) as [H2|H2].
    + apply Z.ones_spec_low. lia.
    + apply Z.ones_spec_high. lia.
  - destruct (Z_lt_le_dec b 0) as [Hneg|Hpos]; [apply Z.testbit_neg_r, Hneg|].
    rewrite Z.shiftl_spec by lia. apply Z.testbit_neg_r. lia.
Qed.

Lemma single_recorded_mask : recorded_mask bitstring opcode_bitsize 0 = single_mask.
Proof.
  pose proof single_width as Hw.
  apply word_eq_by_positions; [apply or_bits_range; lia|apply single_mask_range|].
  intros i Hi. unfold recorded_mask. rewrite testbit_or_positions by lia.
  rewrite single_recorded, single_mask_testbit by exact Hi.
  replace (i <? opcode_bitsize) with true by (symmetry; apply Nat.ltb_lt; exact Hi).
  unfold bit_position. simpl.
  destruct (Nat.leb_spec (length pre) i), (Nat.ltb_spec i (length pre + n)),
    (Z.leb_spec (Z.of_nat (length post)) (Z.of_nat (opcode_bitsize - i - 1))),
    (Z.ltb_spec (Z.of_nat (opcode_bitsize - i - 1)) (Z.of_nat (length post) + Z.of_nat n));
    simpl; try reflexivity; lia.
Qed.

Lemma single_recorded_shift : recorded_shift bitstring opcode_bitsize 0 = length post.
Proof.
  pose proof single_width as Hw. unfold recorded_shift.
  rewrite (shift_of_last _ (length pre + n - 1)); [unfold bit_position; lia|lia| |].
  - rewrite single_recorded by lia.
    apply andb_true_iff. split; [apply Nat.leb_le|apply Nat.ltb_lt]; lia.
  - intros i H1 H2. rewrite single_recorded by lia.
    apply andb_false_iff. right. apply Nat.ltb_ge. lia.
Qed.

Lemma single_GetArgInfo (ignore_asserts : bool) :
  GetArgInfo ignore_asserts 1 bitstring = Ok ([single_mask], [length post]).
Proof.
  pose proof single_width as Hw. unfold GetArgInfo. rewrite arg_info_scan_ok.
  - cbn [bind masks shifts fmap list_fmap seq].
    rewrite single_recorded_mask, single_recorded_shift.
    assert (Hnz : all_nonzero [single_mask] = true).
    { unfold all_nonzero. simpl. rewrite andb_true_r. apply negb_true_iff, Z.eqb_neq.
      intros E.
      pose proof (single_mask_testbit (Z.of_nat (length post))) as Hb.
      rewrite E, Z.bits_0 in Hb. symmetry in Hb.
      apply andb_false_iff in Hb as [Hb|Hb]; [apply Z.leb_gt in Hb|apply Z.ltb_ge in Hb]; lia. }
    rewrite Hnz. destruct ignore_asserts; reflexivity.
  - intros i Hi Hm. rewrite single_index by assumption. lia.
Qed.

Lemma single_shiftl_small (v : Z) :
  (0 <= v < 2 ^ Z.of_nat n)%Z ->
  wrap (Z.shiftl v (Z.of_nat (length post))) = Z.shiftl v (Z.of_nat (length post)).
Proof.
  intros Hv. apply wrap_small. rewrite Z.shiftl_mul_pow2 by lia.
  rewrite <- single_width.
  replace (Z.of_nat (length pre + n + length post))
    with (Z.of_nat (length pre) + (Z.of_nat n + Z.of_nat (length post)))%Z by lia.
  rewrite !Z.pow_add_r by lia.
  pose proof (pow2_pos (length pre)) as HA. pose proof (pow2_pos (length post)) as HC.
  destruct Hv as [Hv0 Hv1].
  generalize dependent (2 ^ Z.of_nat (length pre))%Z. intros A HA.
  generalize dependent (2 ^ Z.of_nat (length post))%Z. intros C HC.
  generalize dependent (2 ^ Z.of_nat n)%Z. intros B Hv1.
  assert (v * C < B * C)%Z by (apply Z.mul_lt_mono_pos_r; lia).
  assert (1 * (B * C) <= A * (B * C))%Z by (apply Z.mul_le_mono_nonneg_r; nia).
  nia.
Qed.

Lemma single_decode (v x : Z) :
  (0 <= v < 2 ^ Z.of_nat n)%Z ->
  Z.land x single_mask = wrap (Z.shiftl v (Z.of_nat (length post))) ->
  decode_field single_mask (length post) x = v.
Proof.
  intros Hv Hx. unfold decode_field. rewrite Hx, single_shiftl_small by exact Hv.
  rewrite Z.shiftr_shiftl_l by lia. rewrite Z.sub_diag. apply Z.shiftl_0_r.
Qed.

Lemma single_encode (v x0 : Z) :
  (0 <= v < 2 ^ Z.of_nat n)%Z ->
  Z.land (encode_field single_mask (length post) v x0) single_mask
  = wrap (Z.shiftl v (Z.of_nat (length post))).
Proof.
  intros Hv. unfold encode_field. rewrite single_shiftl_small by exact Hv.
  apply Z.bits_inj'. intros b Hb.
  rewrite Z.land_spec, Z.lor_spec, Z.ldiff_spec, single_mask_testbit.
  rewrite Z.shiftl_spec by exact Hb.
  destruct (Z.leb_spec (Z.of_nat (length post)) b) as [H1|H1]; simpl.
  - destruct (Z.ltb_spec b (Z.of_nat (length post) + Z.of_nat n)) as [H2|H2]; simpl.
    + rewrite andb_false_r, andb_true_r. reflexivity.
    + rewrite andb_false_r. symmetry. apply (testbit_high v n); [exact Hv|lia].
  - rewrite andb_false_r. symmetry. apply Z.testbit_neg_r. lia.
Qed.

Lemma single_field_width : field_width bitstring 0 = n.
Proof.
  pose proof single_width as Hw. unfold field_width, field_positions.
  rewrite (positions_upto_ext _ (fun i => (length pre <=? i) && (i <? length pre + n))).
  - rewrite length_positions_interval; [reflexivity|lia].
  - intros i Hi. rewrite Hlen in Hi. unfold in_field.
    rewrite single_marker by exact Hi.
    pose proof (single_fields_upto (i + 1) ltac:(lia)) as Hf.
    replace (field_of bitstring i =? 0) with true; [apply andb_true_r|].
    symmetry. apply Nat.eqb_eq. unfold field_of.
    destruct (length pre <? i + 1); lia.
Qed.

End SingleField.

(** A pattern with exactly one field is a run of one marker between fixed or
    don't-care characters. *)
Lemma last_marker_before (bitstring : list ascii) (a k : nat) :
  is_marker (char_at bitstring a) = true -> a < k ->
  exists b, a <= b /\ b < k /\ is_marker (char_at bitstring b) = true
            /\ forall i, b < i -> i < k -> is_marker (char_at bitstring i) = false.
Proof.
  intros Ha. induction k as [|k IH]; intros Hk; [lia|].
  destruct (is_marker (char_at bitstring k)) eqn:Ek.
  - exists k. split; [lia|]. split; [lia|]. split; [exact Ek|]. intros; lia.
  - destruct (Nat.eq_dec a k) as [->|Hne]; [congruence|].
    destruct (IH ltac:(lia)) as (b & H1 & H2 & H3 & H4).
    exists b. split; [lia|]. split; [lia|]. split; [exact H3|].
    intros i Hi1 Hi2. destruct (Nat.eq_dec i k) as [->|Hik]; [exact Ek|].
    apply H4; lia.
Qed.

Lemma char_at_lookup (bitstring : list ascii) (i : nat) (x : ascii) :
  bitstring !! i = Some x -> char_at bitstring i = x.
Proof. intros H. unfold char_at. rewrite H. reflexivity. Qed.

Lemma single_field_shape (bitstring : list ascii) :
  field_count bitstring = 1 ->
  exists pre post c n,
    bitstring = pre ++ replicate n c ++ post
    /\ Forall (fun x => is_fixed_or_dontcare x = true) pre
    /\ Forall (fun x => is_fixed_or_dontcare x = true) post
    /\ is_marker c = true /\ 0 < n.
Proof.
  intros Hcount. unfold field_count in Hcount.
  destruct (field_start_exists bitstring (length bitstring) 0 ltac:(lia))
    as (a & Ha & Hs & Hf).
  pose proof (field_start_marker _ _ Hs) as Hma.
  assert (Fa0 : fields_upto bitstring a = 0).
  { pose proof (fields_upto_S bitstring a) as E. rewrite Hs in E. lia. }
  assert (Hbefore : forall i, i < a -> is_marker (char_at bitstring i) = false).
  { intros i Hi. apply not_true_is_false. intros Hm.
    destruct (cursor_index_le bitstring i ltac:(lia) Hm) as [H1 _].
    pose proof (fields_upto_mono bitstring (i + 1) a ltac:(lia)). lia. }
  assert (Hstep : forall i, a < i -> i < length bitstring ->
            is_marker (char_at bitstring i) = true ->
            char_at bitstring (i - 1) = char_at bitstring i).
  { intros i Hai Hi Hm. destruct (field_start bitstring i) eqn:Es.
    - pose proof (fields_upto_S bitstring i) as E. rewrite Es in E.
      pose proof (fields_upto_mono bitstring (a + 1) i ltac:(lia)).
      pose proof (fields_upto_mono bitstring (i + 1) (length bitstring) ltac:(lia)). lia.
    - unfold field_start in Es. rewrite Hm in Es.
      replace (i =? 0) with false in Es by (symmetry; apply Nat.eqb_neq; lia).
      simpl in Es. apply negb_false_iff, Ascii.eqb_eq in Es. exact Es. }
  destruct (last_marker_before bitstring a (length bitstring) Hma Ha)
    as (b & Hab & Hb & Hmb & Hafter).
  assert (Hrun : forall d, d <= b - a ->
            char_at bitstring (b - d) = char_at bitstring b).
  { induction d as [|d IH]; intros Hd; [rewrite Nat.sub_0_r; reflexivity|].
    specialize (IH ltac:(lia)). rewrite <- IH.
    replace (b - S d) with (b - d - 1) by lia. apply Hstep; [lia|lia|].
    rewrite IH. exact Hmb. }
  exists (take a bitstring), (drop (a + (b - a + 1)) bitstring),
    (char_at bitstring b), (b - a + 1).
  split.
  - rewrite <- (take_drop a bitstring) at 1. f_equal.
    rewrite <- (take_drop (b - a + 1) (drop a bitstring)) at 1.
    rewrite drop_drop. f_equal.
    apply list_eq. intros i. destruct (Nat.lt_ge_cases i (b - a + 1)) as [Hi|Hi].
    + rewrite lookup_take_lt, lookup_drop, lookup_replicate_2 by lia.
      destruct (lookup_lt_is_Some_2 bitstring (a + i) ltac:(lia)) as [x Ex].
      rewrite Ex. f_equal. rewrite <- (char_at_lookup _ _ _ Ex).
      replace (a + i) with (b - (b - a - i)) by lia. apply Hrun. lia.
    + rewrite lookup_take_ge by lia. symmetry. apply lookup_replicate_None. lia.
  - split; [|split; [|split; [exact Hmb|lia]]].
    + apply Forall_lookup. intros i x Hx.
      destruct (Nat.lt_ge_cases i a) as [Hi|Hi];
        [|rewrite lookup_take_ge in Hx by lia; discriminate].
      rewrite lookup_take_lt in Hx by lia.
      pose proof (Hbefore i Hi) as Hf'. rewrite (char_at_lookup _ _ _ Hx) in Hf'.
      apply negb_false_iff in Hf'. exact Hf'.
    + apply Forall_lookup. intros i x Hx. rewrite lookup_drop in Hx.
      pose proof (lookup_lt_Some _ _ _ Hx) as Hlt.
      pose proof (Hafter (a + (b - a + 1) + i) ltac:(lia) Hlt) as Hf'.
      rewrite (char_at_lookup _ _ _ Hx) in Hf'.
      apply negb_false_iff in Hf'. exact Hf'.
Qed.

(** C9: for every pattern with a single field, of width [n], [GetArgInfo<1>]
    returns one mask [m] and one shift [s], with [m = (2^n - 1) << s]; for
    every [n]-bit value [v], every word [x] with [(x & m) == (v << s)]
    decodes to [v] by [(x & m) >> s], and the word obtained by placing [v]
    into the field of any word [x0] is such a word. *)
Theorem field_round_trip (bitstring : list ascii) :
  length bitstring = opcode_bitsize -> field_count bitstring = 1 ->
  exists m s,
    (forall ignore_asserts, GetArgInfo ignore_asserts 1 bitstring = Ok ([m], [s]))
    /\ m = run_mask (field_width bitstring 0) s
    /\ forall v, (0 <= v < 2 ^ Z.of_nat (field_width bitstring 0))%Z ->
         (forall x, Z.land x m = wrap (Z.shiftl v (Z.of_nat s)) ->
                    Z.shiftr (Z.land x m) (Z.of_nat s) = v)
         /\ (forall x0,
               Z.land (encode_field m s v x0) m = wrap (Z.shiftl v (Z.of_nat s))
               /\ Z.shiftr (Z.land (encode_field m s v x0) m) (Z.of_nat s) = v).
Proof.
  intros Hlen Hcount.
  destruct (single_field_shape bitstring Hcount)
    as (pre & post & c & n & -> & Hpre & Hpost & Hc & Hn).
  exists (run_mask n (length post)), (length post).
  rewrite (single_field_width pre post c n) by assumption.
  split; [intros ia; apply single_GetArgInfo; assumption|].
  split; [reflexivity|].
  intros v Hv.
  assert (Hdec : forall x,
            Z.land x (run_mask n (length post)) = wrap (Z.shiftl v (Z.of_nat (length post))) ->
            Z.shiftr (Z.land x (run_mask n (length post))) (Z.of_nat (length post)) = v)
    by (intros x Hx; apply (single_decode pre post c n); assumption).
  split; [exact Hdec|]. intros x0.
  assert (Henc : Z.land (encode_field (run_mask n (length post)) (length post) v x0)
                        (run_mask n (length post))
                 = wrap (Z.shiftl v (Z.of_nat (length post))))
    by (apply (single_encode pre post c n); assumption).
  split; [exact Henc|]. apply Hdec, Henc.
Qed.

(** ** What [GetArgInfo] returns on any pattern *)

(** A returned pair of tables is the pair of the recorded masks and shifts,
    and every marker was recorded under an index below [N]. *)
Lemma GetArgInfo_Ok_inv (ignore_asserts : bool) (N : nat) (bitstring : list ascii)
    (ms : list Z) (ss : list nat) :
  GetArgInfo ignore_asserts N bitstring = Ok (ms, ss) ->
  ms = recorded_mask bitstring opcode_bitsize <$> seq 0 N
  /\ ss = recorded_shift bitstring opcode_bitsize <$> seq 0 N
  /\ forall i, i < opcode_bitsize -> is_marker (char_at bitstring i) = true ->
       fst (cursor_after bitstring (i + 1)) < N.
Proof.
  unfold GetArgInfo. intros H.
  destruct (arg_info_scan_spec N bitstring opcode_bitsize ltac:(lia))
    as [[Hgood E]|[_ E]]; rewrite E in H; simpl in H; [|discriminate].
  assert (H' : Ok (recorded_mask bitstring opcode_bitsize <$> seq 0 N,
                   recorded_shift bitstring opcode_bitsize <$> seq 0 N)
               = Ok (ms, ss)).
  { destruct ignore_asserts; [exact H|]. unfold ASSERT in H.
    destruct (all_nonzero _); [exact H|discriminate]. }
  injection H' as <- <-. auto.
Qed.

Lemma GetArgInfo_lookup (ignore_asserts : bool) (N : nat) (bitstring : list ascii)
    (ms : list Z) (ss : list nat) (j : nat) (m : Z) :
  GetArgInfo ignore_asserts N bitstring = Ok (ms, ss) -> ms !! j = Some m ->
  j < N /\ m = recorded_mask bitstring opcode_bitsize j
  /\ ss !! j = Some (recorded_shift bitstring opcode_bitsize j).
Proof.
  intros H Hj. destruct (GetArgInfo_Ok_inv _ _ _ _ _ H) as (-> & -> & _).
  assert (Hlt : j < N).
  { apply lookup_lt_Some in Hj. rewrite length_fmap, length_seq in Hj. exact Hj. }
  rewrite lookup_fmap_seq in Hj by exact Hlt. injection Hj as <-.
  rewrite lookup_fmap_seq by exact Hlt. auto.
Qed.

Lemma recorded_mask_range (bitstring : list ascii) (j : nat) :
  (0 <= recorded_mask bitstring opcode_bitsize j < 2 ^ Z.of_nat opcode_bitsize)%Z.
Proof.
  unfold recorded_mask. destruct opcode_bitsize as [|w] eqn:E; [simpl; lia|].
  rewrite <- E. apply or_bits_range. lia.
Qed.

Lemma recorded_mask_testbit (bitstring : list ascii) (j i : nat) :
  i < opcode_bitsize ->
  Z.testbit (recorded_mask bitstring opcode_bitsize j) (Z.of_nat (bit_position i))
  = recorded_at bitstring j i.
Proof.
  intros Hi. unfold recorded_mask. rewrite testbit_or_positions by lia.
  replace (i <? opcode_bitsize) with true by (symmetry; apply Nat.ltb_lt; exact Hi).
  reflexivity.
Qed.

(** Two words below [2^W] that share no bit of any position have an empty
    AND. *)
Lemma land_0_by_positions (a b : Z) :
  (0 <= a < 2 ^ Z.of_nat opcode_bitsize)%Z ->
  (forall i, i < opcode_bitsize ->
     Z.testbit a (Z.of_nat (bit_position i)) = true ->
     Z.testbit b (Z.of_nat (bit_position i)) = false) ->
  Z.land a b = 0%Z.
Proof.
  intros Ha H. apply word_eq_by_positions'.
  - intros n Hn. rewrite Z.land_spec, (testbit_high a opcode_bitsize) by auto. reflexivity.
  - intros n _. apply Z.bits_0.
  - intros i Hi. rewrite Z.land_spec, Z.bits_0.
    destruct (Z.testbit a (Z.of_nat (bit_position i))) eqn:E; [|reflexivity].
    rewrite (H i Hi E). reflexivity.
Qed.

(** X2: whenever [GetArgInfo<N>] returns its tables, on any pattern, the
    masks are words of [W] bits that share no bit with each other nor with
    the [mask] of [GetMaskAndExpect], and the bit of a position is in one of
    them exactly when the character there is a field marker. *)
Theorem GetArgInfo_masks_partition (ignore_asserts : bool) (N : nat)
    (bitstring : list ascii) (masks : list Z) (shifts : list nat) (mask expect : Z) :
  GetArgInfo ignore_asserts N bitstring = Ok (masks, shifts) ->
  GetMaskAndExpect bitstring = (mask, expect) ->
  length masks = N /\ length shifts = N
  /\ (forall j m, masks !! j = Some m ->
        (0 <= m < 2 ^ Z.of_nat opcode_bitsize)%Z /\ Z.land m mask = 0%Z)
  /\ (forall j j' m m', j <> j' -> masks !! j = Some m -> masks !! j' = Some m' ->
        Z.land m m' = 0%Z)
  /\ (forall i, i < opcode_bitsize ->
        (is_marker (char_at bitstring i) = true <->
         exists j m, masks !! j = Some m
                     /\ Z.testbit m (Z.of_nat (opcode_bitsize - 1 - i)) = true)).
Proof.
  intros HG HM.
  assert (Hpos : forall i, opcode_bitsize - 1 - i = bit_position i)
    by (intros; unfold bit_position; lia).
  split; [|split; [|split; [|split]]].
  - destruct (GetArgInfo_Ok_inv _ _ _ _ _ HG) as (-> & _ & _).
    rewrite length_fmap, length_seq. reflexivity.
  - destruct (GetArgInfo_Ok_inv _ _ _ _ _ HG) as (_ & -> & _).
    rewrite length_fmap, length_seq. reflexivity.
  - intros j m Hj. destruct (GetArgInfo_lookup _ _ _ _ _ _ _ HG Hj) as (_ & -> & _).
    split; [apply recorded_mask_range|].
    apply land_0_by_positions; [apply recorded_mask_range|].
    intros i Hi Hb. rewrite recorded_mask_testbit in Hb by exact Hi.
    destruct (GetMaskAndExpect_testbit _ _ _ i HM Hi) as [-> _].
    unfold recorded_at, is_marker, is_fixed_or_dontcare in Hb. unfold is_binary.
    apply andb_true_iff in Hb as [Hb _]. apply negb_true_iff in Hb.
    apply orb_false_iff in Hb as [Hb _]. exact Hb.
  - intros j j' m m' Hne Hj Hj'.
    destruct (GetArgInfo_lookup _ _ _ _ _ _ _ HG Hj) as (_ & -> & _).
    destruct (GetArgInfo_lookup _ _ _ _ _ _ _ HG Hj') as (_ & -> & _).
    apply land_0_by_positions; [apply recorded_mask_range|].
    intros i Hi Hb. rewrite recorded_mask_testbit in * by exact Hi.
    unfold recorded_at in *. apply andb_true_iff in Hb as [-> Hb].
    apply Nat.eqb_eq in Hb. simpl. apply Nat.eqb_neq. lia.
  - intros i Hi. rewrite Hpos. split.
    + intros Hm. destruct (GetArgInfo_Ok_inv _ _ _ _ _ HG) as (-> & _ & Hidx).
      specialize (Hidx i Hi Hm).
      exists (fst (cursor_after bitstring (i + 1))), (recorded_mask bitstring opcode_bitsize
                 (fst (cursor_after bitstring (i + 1)))).
      split; [apply lookup_fmap_seq, Hidx|].
      rewrite recorded_mask_testbit by exact Hi. unfold recorded_at.
      rewrite Hm, Nat.eqb_refl. reflexivity.
    + intros (j & m & Hj & Hb).
      destruct (GetArgInfo_lookup _ _ _ _ _ _ _ HG Hj) as (_ & -> & _).
      rewrite recorded_mask_testbit in Hb by exact Hi.
      unfold recorded_at in Hb. apply andb_true_iff in Hb. apply Hb.
Qed.

(** X5: [GetArgInfo<N>] throws [std::out_of_range] only on a pattern with
    more than [N] distinct fields, and only with the message
    ["Unexpected field"]; a NUL character in the pattern does not change
    that. *)
Theorem GetArgInfo_throws_only_if_too_many (ignore_asserts : bool) (N : nat)
    (bitstring : list ascii) (msg : string) :
  length bitstring = opcode_bitsize ->
  GetArgInfo ignore_asserts N bitstring = OutOfRange msg ->
  N < field_count bitstring /\ msg = "Unexpected field"%string.
Proof.
  intros Hlen H. unfold GetArgInfo in H.
  destruct (arg_info_scan_spec N bitstring opcode_bitsize ltac:(lia))
    as [[_ E]|[(i & Hi & Hm & Hbad) E]]; rewrite E in H; simpl in H.
  - destruct ignore_asserts; [discriminate|]. unfold ASSERT in H.
    destruct (all_nonzero _); discriminate.
  - injection H as <-. split; [|reflexivity].
    destruct (cursor_index_le bitstring i ltac:(lia) Hm) as [_ Hle].
    pose proof (field_of_lt_count bitstring i ltac:(lia) Hm). lia.
Qed.

(** ** The shift of a field is its lowest bit *)

Lemma last_true_before (p : nat -> bool) (a k : nat) :
  p a = true -> a < k ->
  exists b, a <= b /\ b < k /\ p b = true /\ forall i, b < i -> i < k -> p i = false.
Proof.
  intros Ha. induction k as [|k IH]; intros Hk; [lia|].
  destruct (p k) eqn:Ek.
  - exists k. split; [lia|]. split; [lia|]. split; [exact Ek|]. intros; lia.
  - destruct (Nat.eq_dec a k) as [->|Hne]; [congruence|].
    destruct (IH ltac:(lia)) as (b & H1 & H2 & H3 & H4).
    exists b. split; [lia|]. split; [lia|]. split; [exact H3|].
    intros i Hi1 Hi2. destruct (Nat.eq_dec i k) as [->|Hik]; [exact Ek|].
    apply H4; lia.
Qed.

(** The OR over the positions that satisfy [p] has no bit below the bit of the
    last such position, and has that bit when there is such a position. *)
Lemma positions_lowest_bit (p : nat -> bool) :
  let l := positions_upto p opcode_bitsize in
  (forall b, Z.testbit (or_bits l) b = true -> (Z.of_nat (shift_of l) <= b)%Z)
  /\ (or_bits l <> 0%Z ->
      Z.testbit (or_bits l) (Z.of_nat (shift_of l)) = true /\ shift_of l < opcode_bitsize)
  /\ (or_bits l = 0%Z -> shift_of l = 0).
Proof.
  cbv zeta. destruct (positions_upto p opcode_bitsize) as [|a0 l0] eqn:El.
  - simpl. split; [intros b Hb; rewrite Z.bits_0 in Hb; discriminate|].
    split; [congruence|reflexivity].
  - assert (Hin : In a0 (positions_upto p opcode_bitsize)) by (rewrite El; left; reflexivity).
    apply positions_upto_lt in Hin as [Ha0 Hpa0]. rewrite <- El.
    destruct (last_true_before p a0 opcode_bitsize Hpa0 Ha0) as (b & _ & Hb & Hpb & Hafter).
    rewrite (shift_of_last p b opcode_bitsize Hb Hpb Hafter).
    assert (Hbit : Z.testbit (or_bits (positions_upto p opcode_bitsize))
                             (Z.of_nat (bit_position b)) = true).
    { rewrite testbit_or_positions by lia. rewrite Hpb.
      apply andb_true_iff. split; [apply Nat.ltb_lt; exact Hb|reflexivity]. }
    split; [|split].
    + intros n Hn.
      destruct (Z_lt_le_dec n 0) as [Hneg|Hnn];
        [rewrite Z.testbit_neg_r in Hn by exact Hneg; discriminate|].
      destruct (Z_lt_le_dec n (Z.of_nat opcode_bitsize)) as [Hlt|Hge].
      * replace n with (Z.of_nat (bit_position (opcode_bitsize - 1 - Z.to_nat n))) in Hn
          by (unfold bit_position; lia).
        rewrite testbit_or_positions in Hn by lia.
        apply andb_true_iff in Hn as [_ Hp].
        destruct (Nat.le_gt_cases (opcode_bitsize - 1 - Z.to_nat n) b) as [Hle|Hgt].
        -- unfold bit_position. lia.
        -- rewrite Hafter in Hp by lia. discriminate.
      * rewrite (testbit_high _ opcode_bitsize) in Hn;
          [discriminate|apply or_bits_range; lia|exact Hge].
    + intros _. split; [exact Hbit|apply bit_position_lt; lia].
    + intros E. rewrite E, Z.bits_0 in Hbit. discriminate.
Qed.

(** X3: whenever [GetArgInfo<N>] returns its tables, on any pattern, the
    shift of an argument is the lowest set bit of its mask (and 0 for a zero
    mask), so shifting the extracted value back gives the masked word: the
    extraction [(x & mask) >> shift] drops no bit of the field. *)
Theorem GetArgInfo_shift_is_lowest_bit (ignore_asserts : bool) (N : nat)
    (bitstring : list ascii) (masks : list Z) (shifts : list nat)
    (j : nat) (m : Z) (sh : nat) :
  GetArgInfo ignore_asserts N bitstring = Ok (masks, shifts) ->
  masks !! j = Some m -> shifts !! j = Some sh ->
  (m <> 0%Z -> Z.testbit m (Z.of_nat sh) = true /\ sh < opcode_bitsize)
  /\ (m = 0%Z -> sh = 0)
  /\ (forall b, (b < Z.of_nat sh)%Z -> Z.testbit m b = false)
  /\ forall x, Z.shiftl (decode_field m sh x) (Z.of_nat sh) = Z.land x m.
Proof.
  intros HG Hj Hs.
  destruct (GetArgInfo_lookup _ _ _ _ _ _ _ HG Hj) as (_ & -> & Hs').
  rewrite Hs' in Hs. injection Hs as <-. unfold recorded_mask, recorded_shift.
  destruct (positions_lowest_bit (recorded_at bitstring j)) as (Hlow & Hset & Hzero).
  cbv zeta in Hlow, Hset, Hzero.
  set (l := positions_upto (recorded_at bitstring j) opcode_bitsize) in *.
  assert (Hbelow : forall b, (b < Z.of_nat (shift_of l))%Z -> Z.testbit (or_bits l) b = false).
  { intros b Hb. apply not_true_is_false. intros Ht. specialize (Hlow b Ht). lia. }
  split; [exact Hset|]. split; [exact Hzero|]. split; [exact Hbelow|].
  intros x. unfold decode_field. apply Z.bits_inj'. intros n Hn.
  rewrite Z.shiftl_spec by exact Hn.
  destruct (Z_lt_le_dec n (Z.of_nat (shift_of l))) as [Hlt|Hge].
  - rewrite Z.testbit_neg_r by lia. rewrite Z.land_spec, Hbelow by exact Hlt.
    symmetry. apply andb_false_r.
  - rewrite Z.shiftr_spec by lia. f_equal. lia.
Qed.

(** ** The words a pattern accepts *)

(** X7: [expect] has no bit outside [mask], so [expect] itself passes the
    test [(x & mask) == expect]; the words that pass are exactly [expect]
    with any bits added outside [mask]. *)
Theorem accepted_words (bitstring : list ascii) (mask expect x : Z) :
  GetMaskAndExpect bitstring = (mask, expect) ->
  Z.land expect mask = expect
  /\ (Z.land x mask = expect <-> exists y, Z.land y mask = 0%Z /\ x = Z.lor expect y).
Proof.
  intros HG. destruct (GetMaskAndExpect_range _ _ _ HG) as [Hm He].
  assert (Hsub : Z.land expect mask = expect).
  { apply word_eq_by_positions'.
    - intros n Hn. rewrite Z.land_spec, (testbit_high expect opcode_bitsize) by auto.
      reflexivity.
    - intros n Hn. apply (testbit_high expect opcode_bitsize); auto.
    - intros i Hi. destruct (GetMaskAndExpect_testbit _ _ _ i HG Hi) as [Hbm Hbe].
      rewrite Z.land_spec, Hbm, Hbe. unfold is_binary.
      destruct (char_at bitstring i =? "1")%char; [apply orb_true_r|reflexivity]. }
  split; [exact Hsub|]. split.
  - intros Hx. exists (Z.ldiff x mask). split.
    + apply Z.bits_inj'. intros n Hn.
      rewrite Z.land_spec, Z.ldiff_spec, Z.bits_0.
      destruct (Z.testbit x n), (Z.testbit mask n); reflexivity.
    + rewrite <- Hx. apply Z.bits_inj'. intros n Hn.
      rewrite Z.lor_spec, Z.land_spec, Z.ldiff_spec.
      destruct (Z.testbit x n), (Z.testbit mask n); reflexivity.
  - intros (y & Hy & ->). rewrite Z.land_lor_distr_l, Hsub, Hy. apply Z.lor_0_r.
Qed.

(** ** Fields are runs of consecutive bits *)

Lemma run_mask_testbit (n sh : nat) (b : Z) :
  Z.testbit (run_mask n sh) b
  = (Z.of_nat sh <=? b)%Z && (b <? Z.of_nat sh + Z.of_nat n)%Z.
Proof.
  unfold run_mask.
  destruct (Z.leb_spec (Z.of_nat sh) b) as [H1|H1]; simpl.
  - rewrite Z.shiftl_spec by lia.
    destruct (Z.ltb_spec b (Z.of_nat sh + Z.of_nat n)) as [H2|H2].
    + apply Z.ones_spec_low. lia.
    + apply Z.ones_spec_high. lia.
  - destruct (Z_lt_le_dec b 0) as [Hneg|Hpos]; [apply Z.testbit_neg_r, Hneg|].
    rewrite Z.shiftl_spec by lia. apply Z.testbit_neg_r. lia.
Qed.

(** The positions of field [k] are consecutive: a start [a] and a width [n]. *)
Lemma in_field_interval (bitstring : list ascii) (k : nat) :
  k < field_count bitstring ->
  exists a n, 0 < n /\ a + n <= length bitstring
    /\ forall i, i < length bitstring ->
         in_field bitstring k i = (a <=? i) && (i <? a + n).
Proof.
  intros Hk.
  destruct (field_start_exists bitstring (length bitstring) k Hk) as (a & Ha & Hs & Hf).
  pose proof (field_start_marker _ _ Hs) as Hma.
  assert (Fa : fields_upto bitstring a = k).
  { pose proof (fields_upto_S bitstring a) as E. rewrite Hs in E. lia. }
  assert (Hina : in_field bitstring k a = true).
  { unfold in_field, field_of. rewrite Hma, Hf. simpl. apply Nat.eqb_eq. lia. }
  destruct (last_true_before (in_field bitstring k) a (length bitstring) Hina Ha)
    as (b & Hab & Hb & Hinb & Hafter).
  assert (Hmb : is_marker (char_at bitstring b) = true)
    by (unfold in_field in Hinb; apply andb_true_iff in Hinb; apply Hinb).
  assert (Fb : fields_upto bitstring (b + 1) = k + 1).
  { unfold in_field, field_of in Hinb. apply andb_true_iff in Hinb as [_ Hfb].
    apply Nat.eqb_eq in Hfb.
    destruct (cursor_index_le bitstring b Hb Hmb) as [H1 _]. lia. }
  exists a, (b - a + 1). split; [lia|]. split; [lia|].
  intros i Hi.
  destruct (Nat.leb_spec a i) as [H1|H1]; simpl.
  - destruct (Nat.ltb_spec i (a + (b - a + 1))) as [H2|H2].
    + pose proof (fields_upto_mono bitstring (a + 1) (i + 1) ltac:(lia)).
      pose proof (fields_upto_mono bitstring (i + 1) (b + 1) ltac:(lia)).
      unfold in_field, field_of.
      replace (fields_upto bitstring (i + 1) - 1 =? k) with true
        by (symmetry; apply Nat.eqb_eq; lia).
      rewrite andb_true_r.
      destruct (is_marker (char_at bitstring i)) eqn:Em; [reflexivity|exfalso].
      assert (i <> b) by (intros ->; congruence).
      apply negb_false_iff in Em.
      pose proof (fields_after_separator bitstring i b ltac:(lia) Em Hmb). lia.
    + apply Hafter; lia.
  - unfold in_field.
    destruct (is_marker (char_at bitstring i)) eqn:Em; [simpl|reflexivity].
    destruct (cursor_index_le bitstring i Hi Em) as [Hpos _].
    pose proof (fields_upto_mono bitstring (i + 1) a ltac:(lia)).
    apply Nat.eqb_neq. unfold field_of. lia.
Qed.

Lemma or_bits_positions_range (p : nat -> bool) :
  (0 <= or_bits (positions_upto p opcode_bitsize) < 2 ^ Z.of_nat opcode_bitsize)%Z.
Proof.
  destruct opcode_bitsize as [|w] eqn:E; [simpl; lia|].
  rewrite <- E. apply or_bits_range. lia.
Qed.

Lemma run_mask_range (n sh : nat) :
  n + sh <= opcode_bitsize -> (0 <= run_mask n sh < 2 ^ Z.of_nat opcode_bitsize)%Z.
Proof.
  intros H. unfold run_mask. rewrite Z.shiftl_mul_pow2, Z.ones_equiv by lia.
  pose proof (pow2_pos n) as Hn. pose proof (pow2_pos sh) as Hs.
  assert (Hle : (2 ^ Z.of_nat n * 2 ^ Z.of_nat sh <= 2 ^ Z.of_nat opcode_bitsize)%Z).
  { rewrite <- Z.pow_add_r by lia. apply Z.pow_le_mono_r; lia. }
  generalize dependent (2 ^ Z.of_nat n)%Z. intros A HA HAle.
  generalize dependent (2 ^ Z.of_nat sh)%Z. intros B HB HBle. nia.
Qed.

(** The OR over a run of [n] consecutive positions from [a] on. *)
Lemma or_bits_interval (p : nat -> bool) (a n : nat) :
  a + n <= opcode_bitsize ->
  (forall i, i < opcode_bitsize -> p i = (a <=? i) && (i <? a + n)) ->
  or_bits (positions_upto p opcode_bitsize) = run_mask n (opcode_bitsize - a - n).
Proof.
  intros Han Hp.
  apply word_eq_by_positions;
    [apply or_bits_positions_range|apply run_mask_range; lia|].
  intros i Hi. rewrite testbit_or_positions, run_mask_testbit, Hp by lia.
  replace (i <? opcode_bitsize) with true by (symmetry; apply Nat.ltb_lt; exact Hi).
  unfold bit_position. simpl.
  destruct (Nat.leb_spec a i), (Nat.ltb_spec i (a + n)),
    (Z.leb_spec (Z.of_nat (opcode_bitsize - a - n)) (Z.of_nat (opcode_bitsize - i - 1))),
    (Z.ltb_spec (Z.of_nat (opcode_bitsize - i - 1))
                (Z.of_nat (opcode_bitsize - a - n) + Z.of_nat n));
    simpl; try reflexivity; lia.
Qed.

(** Mask, shift and width of a field of the pattern. *)
Lemma field_mask_run (bitstring : list ascii) (k : nat) :
  length bitstring = opcode_bitsize ->
  field_mask bitstring k = run_mask (field_width bitstring k) (field_shift bitstring k)
  /\ field_width bitstring k + field_shift bitstring k <= opcode_bitsize.
Proof.
  intros Hlen. unfold field_mask, field_shift, field_width, field_positions.
  destruct (Nat.lt_ge_cases k (field_count bitstring)) as [Hk|Hk].
  - destruct (in_field_interval bitstring k Hk) as (a & n & Hn & Han & Hin).
    rewrite Hlen in *.
    rewrite (positions_upto_ext _ (fun i => (a <=? i) && (i <? a + n)) _ Hin).
    rewrite length_positions_interval by exact Han.
    rewrite (shift_of_last _ (a + n - 1)); [|lia| |].
    + rewrite (or_bits_interval _ a n) by auto.
      unfold bit_position. split; [f_equal; lia|lia].
    + apply andb_true_iff. split; [apply Nat.leb_le|apply Nat.ltb_lt]; lia.
    + intros i H1 H2. apply andb_false_iff. right. apply Nat.ltb_ge. lia.
  - rewrite positions_upto_none; [unfold shift_of; simpl; split; [reflexivity|lia]|].
    intros i Hi. unfold in_field.
    destruct (is_marker (char_at bitstring i)) eqn:Em; [simpl|reflexivity].
    pose proof (field_of_lt_count bitstring i Hi Em). apply Nat.eqb_neq. lia.
Qed.

Lemma decode_run_range (n sh : nat) (x : Z) :
  (0 <= decode_field (run_mask n sh) sh x < 2 ^ Z.of_nat n)%Z.
Proof.
  unfold decode_field, run_mask. rewrite Z.shiftr_land.
  rewrite Z.shiftr_shiftl_l, Z.sub_diag, Z.shiftl_0_r by lia.
  rewrite Z.land_ones by lia. apply Z.mod_pos_bound, pow2_pos.
Qed.

(** X4: on a pattern without NUL, every mask that [GetArgInfo<N>] returns is
    a run of consecutive ones, as wide as the field and starting at its
    shift: [mask = (2^width - 1) << shift].  So the value extracted for a
    field of width [n] is below [2^n]. *)
Theorem GetArgInfo_masks_contiguous (ignore_asserts : bool) (N : nat)
    (bitstring : list ascii) (masks : list Z) (shifts : list nat)
    (k : nat) (m : Z) (sh : nat) :
  has_nul bitstring = false -> length bitstring = opcode_bitsize ->
  GetArgInfo ignore_asserts N bitstring = Ok (masks, shifts) ->
  masks !! k = Some m -> shifts !! k = Some sh ->
  m = Z.shiftl (Z.ones (Z.of_nat (field_width bitstring k))) (Z.of_nat sh)
  /\ field_width bitstring k + sh <= opcode_bitsize
  /\ forall x,
       (0 <= Z.shiftr (Z.land x m) (Z.of_nat sh) < 2 ^ Z.of_nat (field_width bitstring k))%Z.
Proof.
  intros Hnn Hlen HG Hk Hs. apply has_nul_false in Hnn.
  destruct (GetArgInfo_lookup _ _ _ _ _ _ _ HG Hk) as (_ & -> & Hs').
  rewrite Hs' in Hs. injection Hs as <-.
  assert (Em : recorded_mask bitstring opcode_bitsize k = field_mask bitstring k)
    by (rewrite <- Hlen; apply recorded_mask_field, Hnn).
  assert (Es : recorded_shift bitstring opcode_bitsize k = field_shift bitstring k)
    by (rewrite <- Hlen; apply recorded_shift_field, Hnn).
  rewrite Em, Es.
  destruct (field_mask_run bitstring k Hlen) as [E Hle].
  split; [exact E|]. split; [exact Hle|].
  intros x. rewrite E. apply decode_run_range.
Qed.

(** X6: on a pattern without NUL and with assertions compiled in,
    [GetArgInfo<N>] returns its tables if and only if the pattern has exactly
    [N] distinct fields. *)
Theorem GetArgInfo_succeeds_iff (N : nat) (bitstring : list ascii) :
  has_nul bitstring = false -> length bitstring = opcode_bitsize ->
  ((exists masks shifts, GetArgInfo false N bitstring = Ok (masks, shifts))
   <-> field_count bitstring = N).
Proof.
  intros Hnn Hlen. apply has_nul_false in Hnn. split.
  - intros (ms & ss & HG).
    destruct (Nat.lt_trichotomy (field_count bitstring) N) as [Hlt|[Heq|Hgt]];
      [exfalso| exact Heq |exfalso].
    + destruct (arg_info_scan_too_few N bitstring Hlen Hlt) as (st & E & _ & _ & Hall).
      unfold GetArgInfo in HG. rewrite E in HG. simpl in HG. rewrite Hall in HG.
      discriminate.
    + destruct (field_start_exists bitstring _ N Hgt) as (i & Hi & Hs & Hf).
      unfold GetArgInfo in HG.
      rewrite (arg_info_scan_throws N bitstring i) in HG; [discriminate|lia| |].
      * apply field_start_marker, Hs.
      * rewrite cursor_index_eq by (auto using field_start_marker).
        unfold field_of. lia.
  - intros HN. eexists _, _. apply (GetArgInfo_exact false N bitstring Hnn Hlen HN).
Qed.

(** ** From a bitstring to the handler's arguments *)

Lemma recorded_mask_bit_inv (bitstring : list ascii) (j : nat) (b : Z) :
  Z.testbit (recorded_mask bitstring opcode_bitsize j) b = true ->
  exists i, i < opcode_bitsize /\ b = Z.of_nat (bit_position i)
            /\ is_marker (char_at bitstring i) = true
            /\ fst (cursor_after bitstring (i + 1)) = j.
Proof.
  intros Hb.
  destruct (Z_lt_le_dec b 0) as [Hneg|Hnn];
    [rewrite Z.testbit_neg_r in Hb by exact Hneg; discriminate|].
  destruct (Z_lt_le_dec b (Z.of_nat opcode_bitsize)) as [Hlt|Hge].
  - exists (opcode_bitsize - 1 - Z.to_nat b).
    assert (E : b = Z.of_nat (bit_position (opcode_bitsize - 1 - Z.to_nat b)))
      by (unfold bit_position; lia).
    split; [lia|]. split; [exact E|].
    rewrite E, recorded_mask_testbit in Hb by lia.
    unfold recorded_at in Hb. apply andb_true_iff in Hb as [Hm Hj].
    apply Nat.eqb_eq in Hj. auto.
  - rewrite (testbit_high _ opcode_bitsize) in Hb;
      [discriminate|apply recorded_mask_range|exact Hge].
Qed.

Lemma expect_bit_in_mask (bitstring : list ascii) (mask expect : Z) (i : nat) :
  GetMaskAndExpect bitstring = (mask, expect) -> i < opcode_bitsize ->
  is_marker (char_at bitstring i) = true ->
  Z.testbit mask (Z.of_nat (bit_position i)) = false
  /\ Z.testbit expect (Z.of_nat (bit_position i)) = false.
Proof.
  intros HG Hi Hm. destruct (GetMaskAndExpect_testbit _ _ _ i HG Hi) as [-> ->].
  unfold is_marker, is_fixed_or_dontcare in Hm. unfold is_binary.
  apply negb_true_iff, orb_false_iff in Hm as [Hm _].
  apply orb_false_iff in Hm as [H0 H1]. rewrite H0, H1. auto.
Qed.

(** A word whose bits at and above [W] are clear is a word of [W] bits. *)
Lemma word_range_by_bits (x : Z) :
  (forall n, (Z.of_nat opcode_bitsize <= n)%Z -> Z.testbit x n = false) ->
  (0 <= x < 2 ^ Z.of_nat opcode_bitsize)%Z.
Proof.
  intros H.
  assert (E : (x mod 2 ^ Z.of_nat opcode_bitsize = x)%Z).
  { apply Z.bits_inj'. intros n Hn.
    destruct (Z_lt_le_dec n (Z.of_nat opcode_bitsize)) as [Hlt|Hge].
    - apply Z.mod_pow2_bits_low. lia.
    - rewrite Z.mod_pow2_bits_high by lia. symmetry. apply H, Hge. }
  rewrite <- E. apply Z.mod_pos_bound, pow2_pos.
Qed.

Lemma In_combine_lookup {A B : Type} (l1 : list A) (l2 : list B) (a : A) (b : B) :
  In (a, b) (combine l1 l2) <-> exists k, l1 !! k = Some a /\ l2 !! k = Some b.
Proof.
  revert l2. induction l1 as [|x l1 IH]; intros [|y l2]; simpl.
  - split; [tauto|]. intros (k & H & _). destruct k; discriminate.
  - split; [tauto|]. intros (k & H & _). destruct k; discriminate.
  - split; [tauto|]. intros (k & _ & H). destruct k; discriminate.
  - rewrite IH. split.
    + intros [[= -> ->]|(k & H1 & H2)]; [exists 0; auto|exists (S k); auto].
    + intros ([|k] & H1 & H2); simpl in H1, H2;
        [left; congruence|right; exists k; auto].
Qed.

Lemma place_fields_testbit (ss : list nat) (vs : list Z) (acc : Z) (b : Z) :
  Z.testbit (place_fields ss vs acc) b
  = Z.testbit acc b
    || existsb (fun sv => Z.testbit (Z.shiftl (snd sv) (Z.of_nat (fst sv))) b)
               (combine ss vs).
Proof.
  unfold place_fields. revert acc.
  induction (combine ss vs) as [|sv l IH]; intros acc; simpl.
  - symmetry. apply orb_false_r.
  - rewrite IH, Z.lor_spec, orb_assoc. reflexivity.
Qed.

(** The bits of a value below [2^n], shifted left by [sh], lie in the run of
    [n] bits from [sh] on. *)
Lemma shifted_value_in_run (n sh : nat) (v b : Z) :
  (0 <= v < 2 ^ Z.of_nat n)%Z ->
  Z.testbit (Z.shiftl v (Z.of_nat sh)) b = true -> Z.testbit (run_mask n sh) b = true.
Proof.
  intros Hv Hb. rewrite run_mask_testbit.
  destruct (Z_lt_le_dec b 0) as [Hneg|Hnn];
    [rewrite Z.testbit_neg_r in Hb by exact Hneg; discriminate|].
  rewrite Z.shiftl_spec in Hb by exact Hnn.
  destruct (Z_lt_le_dec (b - Z.of_nat sh) 0) as [Hlow|Hlow];
    [rewrite Z.testbit_neg_r in Hb by exact Hlow; discriminate|].
  destruct (Z_lt_le_dec (b - Z.of_nat sh) (Z.of_nat n)) as [Hhi|Hhi];
    [|rewrite (testbit_high v n) in Hb by auto; discriminate].
  apply andb_true_iff. split; [apply Z.leb_le|apply Z.ltb_lt]; lia.
Qed.

Lemma expand_args_values (Args : list arg_type) (a : nat)
    (ms : list Z) (ss : list nat) (x : Z) (vs : list Z) :
  length vs = length Args ->
  (forall j v, vs !! j = Some v ->
     decode_field (mask_at ms (a + j)) (shift_at ss (a + j)) x = v) ->
  expand_args Args (seq a (length Args)) ms ss x = cast_all Args vs.
Proof.
  revert a vs. induction Args as [|T Ts IH]; intros a vs Hlen Hv; [reflexivity|].
  destruct vs as [|v vs]; [discriminate|]. simpl in Hlen. simpl.
  rewrite <- (Nat.add_0_r a) at 1 2. rewrite (Hv 0 v eq_refl). f_equal.
  apply IH; [lia|]. intros j u Hj.
  replace (S a + j) with (a + S j) by lia. apply Hv. exact Hj.
Qed.

Lemma expand_args_ext (Args : list arg_type) (iota : list nat)
    (ms : list Z) (ss : list nat) (x y : Z) :
  (forall i, Z.land x (mask_at ms i) = Z.land y (mask_at ms i)) ->
  expand_args Args iota ms ss x = expand_args Args iota ms ss y.
Proof.
  intros H. revert iota. induction Args as [|T Ts IH]; intros iota; [reflexivity|].
  simpl. unfold decode_field. rewrite H, IH. reflexivity.
Qed.

(** The word assembled from the [expect] word and one value per field, each
    below [2^width] of its field: what the tables of the pattern make of it. *)
Lemma assembled_word (bitstring : list ascii) (N : nat) (mask expect : Z) (vs : list Z) :
  no_nul bitstring -> length bitstring = opcode_bitsize ->
  GetMaskAndExpect bitstring = (mask, expect) ->
  field_count bitstring <= N -> length vs = N ->
  (forall k u, vs !! k = Some u ->
     (0 <= u < 2 ^ Z.of_nat (field_width bitstring k))%Z) ->
  let x := place_fields (recorded_shift bitstring opcode_bitsize <$> seq 0 N) vs expect in
  (0 <= x < 2 ^ Z.of_nat opcode_bitsize)%Z
  /\ Z.land x mask = expect
  /\ forall k u, vs !! k = Some u ->
       decode_field (recorded_mask bitstring opcode_bitsize k)
                    (recorded_shift bitstring opcode_bitsize k) x = u.
Proof.
  intros Hnn Hlen HG HN Hvs Hv. cbv zeta.
  set (shifts := recorded_shift bitstring opcode_bitsize <$> seq 0 N).
  set (x := place_fields shifts vs expect).
  destruct (GetMaskAndExpect_range _ _ _ HG) as [Hmr Her].
  assert (Hrun : forall k, recorded_mask bitstring opcode_bitsize k
                           = run_mask (field_width bitstring k)
                                      (recorded_shift bitstring opcode_bitsize k)).
  { intros k. rewrite <- Hlen at 1 2.
    rewrite recorded_mask_field, recorded_shift_field by exact Hnn.
    apply field_mask_run, Hlen. }
  (* every bit placed for a value is a bit of the mask of its field *)
  assert (Hplaced : forall b,
            existsb (fun sv => Z.testbit (Z.shiftl (snd sv) (Z.of_nat (fst sv))) b)
                    (combine shifts vs) = true ->
            exists k u, vs !! k = Some u
              /\ Z.testbit (Z.shiftl u (Z.of_nat (recorded_shift bitstring opcode_bitsize k))) b
                 = true
              /\ Z.testbit (recorded_mask bitstring opcode_bitsize k) b = true).
  { intros b Hex. apply existsb_exists in Hex as ([sh u] & Hin & Hb). simpl in Hb.
    apply In_combine_lookup in Hin as (k & Hk & Hu).
    assert (Hlt : k < N).
    { apply lookup_lt_Some in Hk. unfold shifts in Hk.
      rewrite length_fmap, length_seq in Hk. exact Hk. }
    unfold shifts in Hk. rewrite lookup_fmap_seq in Hk by exact Hlt.
    injection Hk as <-. exists k, u. split; [exact Hu|]. split; [exact Hb|].
    rewrite Hrun. apply (shifted_value_in_run _ _ u); [apply (Hv k), Hu|exact Hb]. }
  assert (Hx : forall b, Z.testbit x b
             = Z.testbit expect b
               || existsb (fun sv => Z.testbit (Z.shiftl (snd sv) (Z.of_nat (fst sv))) b)
                          (combine shifts vs))
    by (intros b; apply place_fields_testbit).
  split; [|split].
  - apply word_range_by_bits. intros n Hn. rewrite Hx.
    rewrite (testbit_high expect opcode_bitsize) by auto. simpl.
    apply not_true_is_false. intros Hex.
    destruct (Hplaced n Hex) as (k & u & _ & _ & Hb).
    rewrite (testbit_high _ opcode_bitsize) in Hb;
      [discriminate|apply recorded_mask_range|exact Hn].
  - apply Z.bits_inj'. intros n Hn. rewrite Z.land_spec, Hx.
    destruct (existsb _ (combine shifts vs)) eqn:Hex.
    + destruct (Hplaced n Hex) as (k & u & _ & _ & Hb).
      destruct (recorded_mask_bit_inv _ _ _ Hb) as (i & Hi & -> & Hm & _).
      destruct (expect_bit_in_mask _ _ _ i HG Hi Hm) as [-> ->]. reflexivity.
    + rewrite orb_false_r.
      destruct (Z.testbit expect n) eqn:He; [|reflexivity].
      assert (Hs : Z.testbit (Z.land expect mask) n = true).
      { destruct (Z_lt_le_dec n (Z.of_nat opcode_bitsize)) as [Hlt|Hge];
          [|rewrite (testbit_high expect opcode_bitsize) in He by auto; discriminate].
        assert (E : n = Z.of_nat (bit_position (opcode_bitsize - 1 - Z.to_nat n)))
          by (unfold bit_position; lia).
        rewrite E in He |- *. rewrite Z.land_spec, He.
        destruct (GetMaskAndExpect_testbit _ _ _ (opcode_bitsize - 1 - Z.to_nat n) HG
                    ltac:(lia)) as [Hbm Hbe].
        rewrite Hbe in He. rewrite Hbm. unfold is_binary. rewrite He.
        apply orb_true_r. }
      rewrite Z.land_spec, He in Hs. exact Hs.
  - intros k u Hu.
    assert (Hland : Z.land x (recorded_mask bitstring opcode_bitsize k)
                    = Z.shiftl u (Z.of_nat (recorded_shift bitstring opcode_bitsize k))).
    { apply Z.bits_inj'. intros n Hn. rewrite Z.land_spec, Hx.
      destruct (Z.testbit (Z.shiftl u (Z.of_nat (recorded_shift bitstring opcode_bitsize k))) n)
        eqn:Hb.
      - assert (Hm : Z.testbit (recorded_mask bitstring opcode_bitsize k) n = true)
          by (rewrite Hrun; apply (shifted_value_in_run _ _ u); [apply (Hv k), Hu|exact Hb]).
        rewrite Hm, andb_true_r. apply orb_true_iff. right.
        apply existsb_exists.
        exists (recorded_shift bitstring opcode_bitsize k, u). split; [|exact Hb].
        apply In_combine_lookup. exists k. split; [|exact Hu].
        unfold shifts. apply lookup_fmap_seq.
        apply lookup_lt_Some in Hu. lia.
      - destruct (Z.testbit (recorded_mask bitstring opcode_bitsize k) n) eqn:Hm;
          [|apply andb_false_r].
        rewrite andb_true_r.
        destruct (recorded_mask_bit_inv _ _ _ Hm) as (i & Hi & -> & Hmi & Hidx).
        destruct (expect_bit_in_mask _ _ _ i HG Hi Hmi) as [_ ->]. simpl.
        apply not_true_is_false. intros Hex.
        destruct (Hplaced _ Hex) as (k' & u' & Hu' & Hb' & Hm').
        destruct (recorded_mask_bit_inv _ _ _ Hm') as (i' & Hi' & Ei & _ & Hidx').
        assert (i' = i) by (apply bit_position_inj; lia). subst i'.
        assert (k' = k) by congruence. subst k'.
        assert (u' = u) by congruence. subst u'. congruence. }
    unfold decode_field. rewrite Hland.
    rewrite Z.shiftr_shiftl_l by lia. rewrite Z.sub_diag. apply Z.shiftl_0_r.
Qed.

(** X8: for a pattern without NUL whose number of fields is the handler's
    parameter count, [DYNARMIC_DECODER_GET_MATCHER] builds a matcher.  The
    word assembled from its [expect] word and one value per field, each below
    [2^width] of its field and shifted by the field's shift, is a word of [W]
    bits that passes the matcher's test, and the matcher's callable hands the
    handler exactly these values, converted to the parameter types. *)
Theorem decoder_round_trip (ignore_asserts : bool) (Visitor CallRetT : Type)
    (Args : list arg_type) (fn : handler Visitor CallRetT Args) (name : string)
    (bitstring : list ascii) (vs : list Z) :
  has_nul bitstring = false -> length bitstring = opcode_bitsize ->
  field_count bitstring = length Args -> length vs = length Args ->
  (forall k u, vs !! k = Some u ->
     (0 <= u < 2 ^ Z.of_nat (field_width bitstring k))%Z) ->
  exists M masks shifts,
    GetArgInfo ignore_asserts (length Args) bitstring = Ok (masks, shifts)
    /\ DYNARMIC_DECODER_GET_MATCHER ignore_asserts Visitor CallRetT Args fn name bitstring
       = Ok M
    /\ matcher_name _ M = name
    /\ (0 <= place_fields shifts vs (matcher_expect _ M) < 2 ^ Z.of_nat opcode_bitsize)%Z
    /\ Z.land (place_fields shifts vs (matcher_expect _ M)) (matcher_mask _ M)
       = matcher_expect _ M
    /\ forall v,
         matcher_fn _ M v (place_fields shifts vs (matcher_expect _ M))
         = fn v (cast_all Args vs).
Proof.
  intros Hnn Hlen HN Hvs Hv. apply has_nul_false in Hnn.
  destruct (GetArgInfo_exact ignore_asserts (length Args) bitstring Hnn Hlen HN) as [HG _].
  assert (Em : forall k, recorded_mask bitstring opcode_bitsize k = field_mask bitstring k)
    by (intros k; rewrite <- Hlen; apply recorded_mask_field, Hnn).
  assert (Es : forall k, recorded_shift bitstring opcode_bitsize k = field_shift bitstring k)
    by (intros k; rewrite <- Hlen; apply recorded_shift_field, Hnn).
  destruct (GetMaskAndExpect bitstring) as [mask expect] eqn:HM.
  destruct (assembled_word bitstring (length Args) mask expect vs Hnn Hlen HM
              ltac:(lia) Hvs Hv) as (Hr & Ht & Hd).
  cbv zeta in Hr, Ht, Hd.
  rewrite (fmap_seq_ext _ (field_shift bitstring) _ (fun k _ => Es k)) in Hr, Ht, Hd.
  eexists _, _, _. split; [exact HG|].
  unfold DYNARMIC_DECODER_GET_MATCHER. rewrite HG, HM. simpl bind.
  split; [reflexivity|]. simpl.
  split; [reflexivity|]. split; [exact Hr|]. split; [exact Ht|].
  intros v. unfold Make. f_equal.
  apply (expand_args_values Args 0); [exact Hvs|].
  intros j u Hu. simpl.
  assert (Hj : j < length Args) by (apply lookup_lt_Some in Hu; lia).
  unfold mask_at, shift_at. rewrite !lookup_fmap_seq by exact Hj. simpl.
  rewrite <- Em, <- Es. apply Hd, Hu.
Qed.

(** X9: the callable of a matcher built by [DYNARMIC_DECODER_GET_MATCHER], on
    any pattern, reads only the bits at field-marker positions: two words
    that agree at every marker position are dispatched alike, with the same
    arguments, whatever their bits at ['0'], ['1'] and ['-'] positions. *)
Theorem dispatch_reads_only_fields (ignore_asserts : bool) (Visitor CallRetT : Type)
    (Args : list arg_type) (fn : handler Visitor CallRetT Args) (name : string)
    (bitstring : list ascii) (M : Matcher (Visitor -> Z -> Visitor * CallRetT))
    (x y : Z) :
  DYNARMIC_DECODER_GET_MATCHER ignore_asserts Visitor CallRetT Args fn name bitstring
  = Ok M ->
  (forall i, i < opcode_bitsize -> is_marker (char_at bitstring i) = true ->
     Z.testbit x (Z.of_nat (opcode_bitsize - 1 - i))
     = Z.testbit y (Z.of_nat (opcode_bitsize - 1 - i))) ->
  forall v, matcher_fn _ M v x = matcher_fn _ M v y.
Proof.
  unfold DYNARMIC_DECODER_GET_MATCHER. intros HM Hxy v.
  destruct (GetArgInfo ignore_asserts (length Args) bitstring) as [[ms ss]| |] eqn:HG;
    simpl in HM; try discriminate.
  injection HM as <-. destruct (GetMaskAndExpect bitstring) as [mask expect].
  simpl. unfold Make. f_equal. apply expand_args_ext. intros i.
  unfold mask_at. destruct (ms !! i) as [m|] eqn:Hi; simpl;
    [|rewrite !Z.land_0_r; reflexivity].
  destruct (GetArgInfo_lookup _ _ _ _ _ _ _ HG Hi) as (_ & -> & _).
  apply Z.bits_inj'. intros n Hn. rewrite !Z.land_spec.
  destruct (Z.testbit (recorded_mask bitstring opcode_bitsize i) n) eqn:Hb;
    [|rewrite !andb_false_r; reflexivity].
  destruct (recorded_mask_bit_inv _ _ _ Hb) as (p & Hp & -> & Hm & _).
  rewrite !andb_true_r. specialize (Hxy p Hp Hm).
  replace (bit_position p) with (opcode_bitsize - 1 - p) by (unfold bit_position; lia).
  exact Hxy.
Qed.

End Detail.

(** ** [StringToArray] *)

Lemma StringToArray_upto (N : nat) (str : list ascii) (k : nat) :
  k <= N ->
  let result := for_upto k (fun i result => <[i := char_at str i]> result)
                         (replicate N NUL) in
  length result = N
  /\ forall i, i < N -> result !! i = Some (if i <? k then char_at str i else NUL).
Proof.
  induction k as [|k IH]; intros Hk; cbv zeta.
  - split; [apply length_replicate|]. intros i Hi. simpl.
    apply lookup_replicate_2, Hi.
  - replace (S k) with (k + 1) by lia. rewrite for_upto_S.
    destruct (IH ltac:(lia)) as [Hl Hlook].
    split; [rewrite length_insert; exact Hl|].
    intros i Hi. destruct (Nat.eq_dec i k) as [->|Hne].
    + rewrite list_lookup_insert_eq by lia.
      replace (k <? k + 1) with true by (symmetry; apply Nat.ltb_lt; lia). reflexivity.
    + rewrite list_lookup_insert_ne by auto. rewrite Hlook by exact Hi.
      destruct (Nat.ltb_spec i k), (Nat.ltb_spec i (k + 1)); try reflexivity; lia.
Qed.

(** X1: [StringToArray<N>] returns the first [N] characters of its
    [N + 1]-character argument, in order: the argument is the result followed
    by its own last character (the terminator of a literal), whatever the
    characters are. *)
Theorem StringToArray_spec (N : nat) (str : list ascii) :
  length str = N + 1 ->
  StringToArray N str = take N str
  /\ length (StringToArray N str) = N
  /\ (forall i, i < N -> char_at (StringToArray N str) i = char_at str i)
  /\ str = StringToArray N str ++ [char_at str N].
Proof.
  intros Hlen.
  assert (H : StringToArray N str = take N str).
  { destruct (StringToArray_upto N str N ltac:(lia)) as [Hl Hlook].
    cbv zeta in *. fold (StringToArray N str) in *.
    apply list_eq. intros i. destruct (Nat.lt_ge_cases i N) as [Hi|Hi].
    - rewrite Hlook, lookup_take_lt by exact Hi.
      replace (i <? N) with true by (symmetry; apply Nat.ltb_lt; exact Hi).
      destruct (lookup_lt_is_Some_2 str i ltac:(lia)) as [x Ex].
      unfold char_at. rewrite Ex. reflexivity.
    - rewrite lookup_take_ge by exact Hi. apply lookup_ge_None_2. lia. }
  split; [exact H|]. rewrite H. split; [apply length_take_le; lia|]. split.
  - intros i Hi. unfold char_at. rewrite lookup_take_lt by exact Hi. reflexivity.
  - destruct (lookup_lt_is_Some_2 str N ltac:(lia)) as [x Ex].
    rewrite (char_at_lookup _ _ _ Ex).
    rewrite <- (take_drop N str) at 1. f_equal.
    rewrite (drop_S _ _ _ Ex), drop_ge by lia. reflexivity.
Qed.

(** ** The specification's scenario and patterns with NUL *)

Lemma ex_GetMaskAndExpect : GetMaskAndExpect 8 pattern_10aabbb = (192%Z, 128%Z).
Proof. vm_compute. reflexivity. Qed.

Lemma ex_GetArgInfo : GetArgInfo 8 false 2 pattern_10aabbb = Ok ([48%Z; 14%Z], [4; 1]).
Proof. vm_compute. reflexivity. Qed.

Lemma ex_decode :
  (Z.land 172 192 = 128 /\ decode_field 48 4 172 = 2 /\ decode_field 14 1 172 = 6)%Z.
Proof. vm_compute. auto. Qed.

Lemma GetMaskAndExpect_spec_witness :
  length (list_ascii_of_string "10110010") = 8
  /\ GetMaskAndExpect 8 (list_ascii_of_string "10110010") = (255%Z, 178%Z)
  /\ 255%Z = (2 ^ Z.of_nat 8 - 1)%Z
  /\ 178%Z = read_binary (list_ascii_of_string "10110010").
Proof.
  split; [reflexivity|]. split; [vm_compute; reflexivity|].
  apply (GetMaskAndExpect_spec 8 (list_ascii_of_string "10110010") 255 178);
    [reflexivity|vm_compute; reflexivity|].
  intros i Hi.
  do 8 (destruct i as [|i]; [vm_compute; auto|]). lia.
Defined.

Lemma mask_expect_test_spec_witness :
  length pattern_10aabbb = 8
  /\ GetMaskAndExpect 8 pattern_10aabbb = (192%Z, 128%Z)
  /\ (Z.land 172 192 = 128%Z <->
      forall i, i < 8 ->
        (char_at pattern_10aabbb i = "0"%char ->
           Z.testbit 172 (Z.of_nat (8 - 1 - i)) = false)
        /\ (char_at pattern_10aabbb i = "1"%char ->
           Z.testbit 172 (Z.of_nat (8 - 1 - i)) = true)).
Proof.
  split; [reflexivity|]. split; [vm_compute; reflexivity|].
  apply (mask_expect_test_spec 8 pattern_10aabbb 192 128 172);
    [reflexivity|vm_compute; reflexivity].
Defined.

Lemma GetArgInfo_field_tables_witness :
  has_nul pattern_10aabbb = false /\ length pattern_10aabbb = 8
  /\ field_count pattern_10aabbb = 2
  /\ exists masks shifts,
       GetArgInfo 8 false 2 pattern_10aabbb = Ok (masks, shifts)
       /\ length masks = 2 /\ length shifts = 2
       /\ forall k, k < 2 ->
            masks !! k = Some (or_bits 8 (field_positions pattern_10aabbb k))
            /\ shifts !! k = Some (shift_of 8 (field_positions pattern_10aabbb k)).
Proof.
  split; [reflexivity|]. split; [reflexivity|]. split; [reflexivity|].
  apply (GetArgInfo_field_tables 8 false 2 pattern_10aabbb); reflexivity.
Defined.

(** On ["\000a000000"] the NUL and the ['a'] are two fields, and [GetArgInfo<2>]
    records both under index 0: entry 1 of the mask table stays zero, and
    entry 0 is not the mask of the first field. *)
Lemma GetArgInfo_field_tables_counterexample :
  length pattern_nul_a = 8 /\ field_count pattern_nul_a = 2
  /\ GetArgInfo 8 false 2 pattern_nul_a = AssertionFailure
  /\ GetArgInfo 8 true 2 pattern_nul_a = Ok ([192%Z; 0%Z], [6; 0])
  /\ or_bits 8 (field_positions pattern_nul_a 0) = 128%Z
  /\ or_bits 8 (field_positions pattern_nul_a 1) = 64%Z
  /\ shift_of 8 (field_positions pattern_nul_a 0) = 7.
Proof. vm_compute. repeat split; reflexivity. Qed.

Lemma dispatch_spec_witness :
  length [48%Z; 14%Z] = length [UnsignedT 8; UnsignedT 8]
  /\ length [4; 1] = length [UnsignedT 8; UnsignedT 8]
  /\ matcher_fn _
       (GetMatcher nat Z [UnsignedT 8; UnsignedT 8]
          (fun v args => (v + 1, (10 * fst args + fst (snd args))%Z))
          "example" (192%Z, 128%Z) ([48%Z; 14%Z], [4; 1])) 0 172%Z
     = (1, 26%Z).
Proof.
  split; [reflexivity|]. split; [reflexivity|].
  rewrite (proj1 (dispatch_spec 8 nat Z [UnsignedT 8; UnsignedT 8] "example" 192 128
                    [48%Z; 14%Z] [4; 1] eq_refl eq_refl)).
  reflexivity.
Defined.

Lemma arg_index_order_witness :
  has_nul pattern_10aabbb = false /\ length pattern_10aabbb = 8
  /\ assigned_index 8 2 pattern_10aabbb 2 = Some (fields_upto pattern_10aabbb (2 + 1) - 1)
  /\ exists a, assigned_index 8 2 pattern_10aabbb 3 = Some a
               /\ assigned_index 8 2 pattern_10aabbb (3 + 1) = Some (a + 1).
Proof.
  split; [reflexivity|]. split; [reflexivity|].
  destruct (arg_index_order 8 2 pattern_10aabbb eq_refl eq_refl) as (H1 & _ & H3 & _).
  split.
  - apply H1; [lia|reflexivity|vm_compute; lia].
  - apply H3; [lia|reflexivity|reflexivity|vm_compute; discriminate|vm_compute; lia].
Defined.

(** On ["\000a000000"] the NUL and the ['a'] are adjacent runs of different
    markers and get the same index; on ["\0000a00000"] the ['a'] comes after a
    ['0'] and still gets the index of the NUL before it. *)
Lemma arg_index_order_counterexample :
  (is_marker (char_at pattern_nul_a 0) = true
   /\ is_marker (char_at pattern_nul_a 1) = true
   /\ (char_at pattern_nul_a 0 =? char_at pattern_nul_a 1)%char = false
   /\ assigned_index 8 2 pattern_nul_a 0 = Some 0
   /\ assigned_index 8 2 pattern_nul_a 1 = Some 0)
  /\ (is_marker (char_at pattern_nul_0_a 0) = true
      /\ is_fixed_or_dontcare (char_at pattern_nul_0_a 1) = true
      /\ is_marker (char_at pattern_nul_0_a 2) = true
      /\ assigned_index 8 2 pattern_nul_0_a 0 = Some 0
      /\ assigned_index 8 2 pattern_nul_0_a 2 = Some 0).
Proof. vm_compute. repeat split; reflexivity. Qed.

Lemma GetArgInfo_too_many_fields_witness :
  length pattern_10aabbb = 8
  /\ (has_nul pattern_10aabbb = false \/ 1 = 0)
  /\ 1 < field_count pattern_10aabbb
  /\ arg_info_scan 8 1 pattern_10aabbb 8 = OutOfRange "Unexpected field"
  /\ GetArgInfo 8 false 1 pattern_10aabbb = OutOfRange "Unexpected field".
Proof.
  assert (H : 1 < field_count pattern_10aabbb) by (vm_compute; lia).
  split; [reflexivity|]. split; [left; reflexivity|]. split; [exact H|].
  apply (GetArgInfo_too_many_fields 8 false 1 pattern_10aabbb eq_refl (or_introl eq_refl) H).
Defined.

(** ["\000a000000"] has two fields, and [GetArgInfo<1>] returns a table. *)
Lemma GetArgInfo_too_many_fields_counterexample :
  length pattern_nul_a = 8 /\ field_count pattern_nul_a = 2
  /\ GetArgInfo 8 false 1 pattern_nul_a = Ok ([192%Z], [6])
  /\ GetArgInfo 8 true 1 pattern_nul_a = Ok ([192%Z], [6]).
Proof. vm_compute. repeat split; reflexivity. Qed.

Lemma GetArgInfo_arity_mismatch_witness :
  length pattern_10aabbb = 8
  /\ field_count pattern_10aabbb < 3
  /\ 1 < field_count pattern_10aabbb
  /\ (GetArgInfo 8 false 3 pattern_10aabbb = AssertionFailure
      /\ exists masks shifts,
           GetArgInfo 8 true 3 pattern_10aabbb = Ok (masks, shifts)
           /\ exists j, j < 3 /\ masks !! j = Some 0%Z)
  /\ forall ignore_asserts,
       GetArgInfo 8 ignore_asserts 1 pattern_10aabbb = OutOfRange "Unexpected field".
Proof.
  assert (H3 : field_count pattern_10aabbb < 3) by (vm_compute; lia).
  assert (H1 : 1 < field_count pattern_10aabbb) by (vm_compute; lia).
  split; [reflexivity|]. split; [exact H3|]. split; [exact H1|]. split.
  - apply (proj2 (GetArgInfo_arity_mismatch 8 3 pattern_10aabbb eq_refl) H3).
  - apply (proj1 (GetArgInfo_arity_mismatch 8 1 pattern_10aabbb eq_refl) H1).
    left. reflexivity.
Defined.

(** ["10aabbb-"] has two fields; [GetArgInfo<3>] throws no [std::out_of_range]:
    it fails the [ASSERT], or returns a table when assertions are compiled
    out.  ["\000a000000"] has two fields too, and [GetArgInfo<1>] returns a
    table. *)
Lemma GetArgInfo_arity_mismatch_counterexample :
  (length pattern_10aabbb = 8 /\ field_count pattern_10aabbb = 2
   /\ GetArgInfo 8 false 3 pattern_10aabbb = AssertionFailure
   /\ GetArgInfo 8 true 3 pattern_10aabbb = Ok ([48%Z; 14%Z; 0%Z], [4; 1; 0]))
  /\ (length pattern_nul_a = 8 /\ field_count pattern_nul_a = 2
      /\ GetArgInfo 8 false 1 pattern_nul_a = Ok ([192%Z], [6])).
Proof. vm_compute. repeat split; reflexivity. Qed.

Lemma GetArgInfo_exact_arity_succeeds_witness :
  has_nul pattern_10aabbb = false /\ length pattern_10aabbb = 8
  /\ field_count pattern_10aabbb = 2
  /\ exists st,
       arg_info_scan 8 2 pattern_10aabbb 8 = Ok st
       /\ all_nonzero (masks st) = true
       /\ (forall j m, masks st !! j = Some m -> m <> 0%Z)
       /\ forall ignore_asserts,
            GetArgInfo 8 ignore_asserts 2 pattern_10aabbb = Ok (masks st, shifts st).
Proof.
  split; [reflexivity|]. split; [reflexivity|]. split; [reflexivity|].
  apply (GetArgInfo_exact_arity_succeeds 8 2 pattern_10aabbb); reflexivity.
Defined.

(** ["\000a000000"] has two fields, and the [ASSERT] of [GetArgInfo<2>] fails. *)
Lemma GetArgInfo_exact_arity_succeeds_counterexample :
  length pattern_nul_a = 8 /\ field_count pattern_nul_a = 2
  /\ (exists st, arg_info_scan 8 2 pattern_nul_a 8 = Ok st
                 /\ all_nonzero (masks st) = false)
  /\ GetArgInfo 8 false 2 pattern_nul_a = AssertionFailure.
Proof.
  split; [reflexivity|]. split; [reflexivity|]. split; [|vm_compute; reflexivity].
  eexists. split; vm_compute; reflexivity.
Qed.

Lemma field_round_trip_witness :
  length pattern_10aa = 8 /\ field_count pattern_10aa = 1
  /\ field_width pattern_10aa 0 = 2
  /\ exists m s,
       GetArgInfo 8 false 1 pattern_10aa = Ok ([m], [s])
       /\ m = run_mask (field_width pattern_10aa 0) s
       /\ Z.shiftr (Z.land (encode_field 8 m s 3 172) m) (Z.of_nat s) = 3%Z.
Proof.
  split; [reflexivity|]. split; [reflexivity|]. split; [reflexivity|].
  destruct (field_round_trip 8 pattern_10aa eq_refl eq_refl) as (m & s & HG & Hm & Hrt).
  exists m, s. split; [apply HG|]. split; [exact Hm|].
  assert (Hv : (0 <= 3 < 2 ^ Z.of_nat (field_width pattern_10aa 0))%Z)
    by (vm_compute; split; congruence).
  destruct (Hrt 3%Z Hv) as [_ Henc]. apply (Henc 172%Z).
Defined.

Lemma ex_field_round_trip :
  GetArgInfo 8 false 1 pattern_10aa = Ok ([48%Z], [4])
  /\ encode_field 8 48 4 3 172 = 188%Z /\ decode_field 48 4 188 = 3%Z.
Proof. vm_compute. repeat split; reflexivity. Qed.

Lemma GetArgInfo_too_few_fields_witness :
  length pattern_10aabbb = 8
  /\ field_count pattern_10aabbb < 3
  /\ exists st,
       arg_info_scan 8 3 pattern_10aabbb 8 = Ok st
       /\ (exists j, j < 3 /\ masks st !! j = Some 0%Z)
       /\ all_nonzero (masks st) = false
       /\ GetArgInfo 8 false 3 pattern_10aabbb = AssertionFailure
       /\ GetArgInfo 8 true 3 pattern_10aabbb = Ok (masks st, shifts st).
Proof.
  assert (H : field_count pattern_10aabbb < 3) by (vm_compute; lia).
  split; [reflexivity|]. split; [exact H|].
  apply (GetArgInfo_too_few_fields 8 3 pattern_10aabbb eq_refl H).
Defined.

(** ** The added properties on the specification's scenario *)

Lemma StringToArray_spec_witness :
  length (list_ascii_of_string "10aabbb-" ++ [NUL]) = 8 + 1
  /\ StringToArray 8 (list_ascii_of_string "10aabbb-" ++ [NUL]) = pattern_10aabbb
  /\ list_ascii_of_string "10aabbb-" ++ [NUL]
     = StringToArray 8 (list_ascii_of_string "10aabbb-" ++ [NUL]) ++ [NUL].
Proof.
  destruct (StringToArray_spec 8 (list_ascii_of_string "10aabbb-" ++ [NUL]) eq_refl)
    as (H1 & _ & _ & H4).
  split; [reflexivity|]. split; [exact H1|exact H4].
Defined.

Lemma GetArgInfo_masks_partition_witness :
  GetArgInfo 8 false 2 pattern_10aabbb = Ok ([48%Z; 14%Z], [4; 1])
  /\ GetMaskAndExpect 8 pattern_10aabbb = (192%Z, 128%Z)
  /\ (forall j j' m m', j <> j' ->
        [48%Z; 14%Z] !! j = Some m -> [48%Z; 14%Z] !! j' = Some m' -> Z.land m m' = 0%Z)
  /\ (forall i, i < 8 ->
        (is_marker (char_at pattern_10aabbb i) = true <->
         exists j m, [48%Z; 14%Z] !! j = Some m
                     /\ Z.testbit m (Z.of_nat (8 - 1 - i)) = true)).
Proof.
  assert (HG : GetArgInfo 8 false 2 pattern_10aabbb = Ok ([48%Z; 14%Z], [4; 1]))
    by (vm_compute; reflexivity).
  assert (HM : GetMaskAndExpect 8 pattern_10aabbb = (192%Z, 128%Z))
    by (vm_compute; reflexivity).
  split; [exact HG|]. split; [exact HM|].
  destruct (GetArgInfo_masks_partition 8 false 2 pattern_10aabbb _ _ _ _ HG HM)
    as (_ & _ & _ & H4 & H5).
  split; [exact H4|exact H5].
Defined.

Lemma GetArgInfo_shift_is_lowest_bit_witness :
  GetArgInfo 8 false 2 pattern_10aabbb = Ok ([48%Z; 14%Z], [4; 1])
  /\ [48%Z; 14%Z] !! 0 = Some 48%Z /\ [4; 1] !! 0 = Some 4
  /\ (forall b, (b < Z.of_nat 4)%Z -> Z.testbit 48 b = false)
  /\ forall x, Z.shiftl (decode_field 48 4 x) (Z.of_nat 4) = Z.land x 48.
Proof.
  assert (HG : GetArgInfo 8 false 2 pattern_10aabbb = Ok ([48%Z; 14%Z], [4; 1]))
    by (vm_compute; reflexivity).
  split; [exact HG|]. split; [reflexivity|]. split; [reflexivity|].
  destruct (GetArgInfo_shift_is_lowest_bit 8 false 2 pattern_10aabbb _ _ 0 48%Z 4
              HG eq_refl eq_refl) as (_ & _ & H3 & H4).
  split; [exact H3|exact H4].
Defined.

Lemma GetArgInfo_masks_contiguous_witness :
  has_nul pattern_10aabbb = false /\ length pattern_10aabbb = 8
  /\ GetArgInfo 8 false 2 pattern_10aabbb = Ok ([48%Z; 14%Z], [4; 1])
  /\ field_width pattern_10aabbb 1 = 3
  /\ 14%Z = Z.shiftl (Z.ones (Z.of_nat (field_width pattern_10aabbb 1))) (Z.of_nat 1)
  /\ forall x,
       (0 <= Z.shiftr (Z.land x 14) (Z.of_nat 1)
          < 2 ^ Z.of_nat (field_width pattern_10aabbb 1))%Z.
Proof.
  assert (HG : GetArgInfo 8 false 2 pattern_10aabbb = Ok ([48%Z; 14%Z], [4; 1]))
    by (vm_compute; reflexivity).
  split; [reflexivity|]. split; [reflexivity|]. split; [exact HG|].
  split; [reflexivity|].
  destruct (GetArgInfo_masks_contiguous 8 false 2 pattern_10aabbb _ _ 1 14%Z 1
              eq_refl eq_refl HG eq_refl eq_refl) as (H1 & _ & H3).
  split; [exact H1|exact H3].
Defined.

Lemma GetArgInfo_throws_only_if_too_many_witness :
  length pattern_10aabbb = 8
  /\ GetArgInfo 8 false 1 pattern_10aabbb = OutOfRange "Unexpected field"
  /\ 1 < field_count pattern_10aabbb.
Proof.
  assert (HG : GetArgInfo 8 false 1 pattern_10aabbb = OutOfRange "Unexpected field")
    by (vm_compute; reflexivity).
  split; [reflexivity|]. split; [exact HG|].
  apply (GetArgInfo_throws_only_if_too_many 8 false 1 pattern_10aabbb _ eq_refl HG).
Defined.

Lemma GetArgInfo_succeeds_iff_witness :
  has_nul pattern_10aabbb = false /\ length pattern_10aabbb = 8
  /\ ((exists masks shifts, GetArgInfo 8 false 2 pattern_10aabbb = Ok (masks, shifts))
      <-> field_count pattern_10aabbb = 2)
  /\ ((exists masks shifts, GetArgInfo 8 false 3 pattern_10aabbb = Ok (masks, shifts))
      <-> field_count pattern_10aabbb = 3).
Proof.
  split; [reflexivity|]. split; [reflexivity|]. split.
  - apply (GetArgInfo_succeeds_iff 8 2 pattern_10aabbb); reflexivity.
  - apply (GetArgInfo_succeeds_iff 8 3 pattern_10aabbb); reflexivity.
Defined.

Lemma accepted_words_witness :
  GetMaskAndExpect 8 pattern_10aabbb = (192%Z, 128%Z)
  /\ Z.land 128 192 = 128%Z
  /\ (Z.land 172 192 = 128%Z <-> exists y, Z.land y 192 = 0%Z /\ 172%Z = Z.lor 128 y).
Proof.
  assert (HM : GetMaskAndExpect 8 pattern_10aabbb = (192%Z, 128%Z))
    by (vm_compute; reflexivity).
  split; [exact HM|]. apply (accepted_words 8 pattern_10aabbb 192 128 172 HM).
Defined.

Lemma decoder_round_trip_witness :
  has_nul pattern_10aabbb = false /\ length pattern_10aabbb = 8
  /\ field_count pattern_10aabbb = length [UnsignedT 8; UnsignedT 8]
  /\ exists M masks shifts,
       GetArgInfo 8 false (length [UnsignedT 8; UnsignedT 8]) pattern_10aabbb
       = Ok (masks, shifts)
       /\ DYNARMIC_DECODER_GET_MATCHER 8 false nat Z [UnsignedT 8; UnsignedT 8]
            (fun v args => (v + 1, (10 * fst args + fst (snd args))%Z))
            "example" pattern_10aabbb = Ok M
       /\ matcher_name _ M = "example"%string
       /\ (0 <= place_fields shifts [2%Z; 6%Z] (matcher_expect _ M) < 2 ^ Z.of_nat 8)%Z
       /\ Z.land (place_fields shifts [2%Z; 6%Z] (matcher_expect _ M)) (matcher_mask _ M)
          = matcher_expect _ M
       /\ forall v,
            matcher_fn _ M v (place_fields shifts [2%Z; 6%Z] (matcher_expect _ M))
            = (v + 1, 26%Z).
Proof.
  split; [reflexivity|]. split; [reflexivity|]. split; [reflexivity|].
  apply (decoder_round_trip 8 false nat Z [UnsignedT 8; UnsignedT 8]
           (fun v args => (v + 1, (10 * fst args + fst (snd args))%Z))
           "example" pattern_10aabbb [2%Z; 6%Z] eq_refl eq_refl eq_refl eq_refl).
  intros k u Hk.
  destruct k as [|[|k]]; simpl in Hk; try discriminate;
    injection Hk as <-; vm_compute; split; congruence.
Defined.

Lemma dispatch_reads_only_fields_witness :
  DYNARMIC_DECODER_GET_MATCHER 8 false nat Z [UnsignedT 8; UnsignedT 8]
    (fun v args => (v + 1, (10 * fst args + fst (snd args))%Z))
    "example" pattern_10aabbb
  = Ok (GetMatcher nat Z [UnsignedT 8; UnsignedT 8]
          (fun v args => (v + 1, (10 * fst args + fst (snd args))%Z))
          "example" (192%Z, 128%Z) ([48%Z; 14%Z], [4; 1]))
  /\ forall v,
       matcher_fn _ (GetMatcher nat Z [UnsignedT 8; UnsignedT 8]
                       (fun v args => (v + 1, (10 * fst args + fst (snd args))%Z))
                       "example" (192%Z, 128%Z) ([48%Z; 14%Z], [4; 1])) v 172%Z
       = matcher_fn _ (GetMatcher nat Z [UnsignedT 8; UnsignedT 8]
                         (fun v args => (v + 1, (10 * fst args + fst (snd args))%Z))
                         "example" (192%Z, 128%Z) ([48%Z; 14%Z], [4; 1])) v 109%Z.
Proof.
  assert (HM : DYNARMIC_DECODER_GET_MATCHER 8 false nat Z [UnsignedT 8; UnsignedT 8]
                 (fun v args => (v + 1, (10 * fst args + fst (snd args))%Z))
                 "example" pattern_10aabbb
               = Ok (GetMatcher nat Z [UnsignedT 8; UnsignedT 8]
                       (fun v args => (v + 1, (10 * fst args + fst (snd args))%Z))
                       "example" (192%Z, 128%Z) ([48%Z; 14%Z], [4; 1])))
    by reflexivity.
  split; [exact HM|].
  apply (dispatch_reads_only_fields 8 false nat Z _ _ _ pattern_10aabbb _ 172 109 HM).
  intros i Hi Hm.
  do 8 (destruct i as [|i]; [first [discriminate Hm | reflexivity]|]). lia.
Defined.
